(** * The HTTPS bridge of src/electron/httpServer.ts

    The file registers four callbacks with its libraries (the OPTIONS
    route, the manifest route, the [ipc-message] listener and the
    catch-all route), one timer callback per forwarded request and a
    cleanup function.  Node runs each of them to completion on one event
    loop, so the program is modelled as a state machine whose events are
    the invocations of those callbacks, with the requests that the cors
    middleware answers before any route.

    Conventions.
    - [requestIdCounter] and every [request_id] are JavaScript numbers.
      They are modelled as unbounded integers, which is what the counter
      computes for its first 2^53 - 1 increments.
    - A [resolve]/[reject] pair of a promise is represented by the handle
      of the invocation of the catch-all route that created the promise
      (its index in [calls]).
    - The continuation after [await] runs as a microtask, that is before
      the next event; it is executed in the step that settles the promise.
    - Express, cors and the body parsers are libraries.  What they do is
      modelled where it decides which lines of the file run and on what:
      the cors middleware of lines 29-35 answers every OPTIONS request
      itself, so the OPTIONS route of lines 42-49 is never called; the
      body parsers of lines 38-39 leave the empty object in [req.body]
      when the request has no body; [res.status(n).send(b)] throws when
      [n] is not a status code, which takes the handler to its [catch]
      block.  A reply records what the file and its cors middleware put
      on [res]; the headers with which [res.send] frames the body
      (content type, length, entity tag) are not recorded. *)

From stdpp Require Import gmap strings list fin_maps pretty sorting.
From Stdlib Require Import ZArith Lia Ascii.

Local Open Scope Z_scope.
Local Set Warnings "-register-all".

(** ** JavaScript values *)

Inductive JsValue :=
| JsUndefined
| JsNull
| JsBool (b : bool)
| JsNumber (n : Z)
| JsString (s : string)
| JsArray (items : list JsValue)
| JsObject (fields : list (string * JsValue)).

(** [if (v)]: the values that pass a JavaScript condition. *)
Definition truthy (v : JsValue) : bool :=
  match v with
  | JsUndefined | JsNull => false
  | JsBool b => b
  | JsNumber n => negb (n =? 0)
  | JsString s => negb (String.eqb s "")
  | JsArray _ | JsObject _ => true
  end.

(** A structured body: what [express.json] yields, an object or an array. *)
Definition structured (v : JsValue) : Prop :=
  match v with
  | JsArray _ | JsObject _ => True
  | _ => False
  end.

(** ** A serializer to run the model with

    The properties below hold for any serializer; [json_text] is the
    instance that the examples are evaluated with.  It follows
    [JSON.stringify] on values whose numbers are integers that a double
    holds exactly (below 2^53 in magnitude) and whose objects list their
    fields in the order JavaScript keeps them (integer-like keys first):
    strings are quoted and escaped, an [undefined] field is skipped, an
    [undefined] item is printed as [null]. *)

Definition hex_digit (n : N) : ascii :=
  ascii_of_N (if (n <? 10)%N then 48 + n else 87 + n)%N.

Definition escape_char (c : ascii) : string :=
  let n := N_of_ascii c in
  if (n =? 34)%N then String "\"%char (String c "")
  else if (n =? 92)%N then "\\"
  else if (n =? 8)%N then "\b"
  else if (n =? 9)%N then "\t"
  else if (n =? 10)%N then "\n"
  else if (n =? 12)%N then "\f"
  else if (n =? 13)%N then "\r"
  else if (n <? 32)%N then
    "\u00" +:+ String (hex_digit (n / 16)) (String (hex_digit (n mod 16)) "")
  else String c "".

Fixpoint escape_chars (s : string) : string :=
  match s with
  | EmptyString => ""
  | String c s' => escape_char c +:+ escape_chars s'
  end.

Definition quote_json_string (s : string) : string :=
  String "034"%char (escape_chars s +:+ String "034"%char "").

Fixpoint json_text (v : JsValue) : string :=
  match v with
  | JsUndefined => ""
  | JsNull => "null"
  | JsBool b => if b then "true" else "false"
  | JsNumber n => pretty n
  | JsString s => quote_json_string s
  | JsArray items =>
      "[" +:+ String.concat ","
                (map (λ item, match item with
                              | JsUndefined => "null"
                              | _ => json_text item
                              end) items) +:+ "]"
  | JsObject fields =>
      "{" +:+ String.concat ","
                (flat_map (λ field, match field.2 with
                                    | JsUndefined => []
                                    | _ => [quote_json_string field.1 +:+ ":"
                                              +:+ json_text field.2]
                                    end) fields) +:+ "}"
  end.

(** [JSON.stringify] is a built-in of the platform, not part of the
    file: the bridge is defined over any serializer. *)
Class Serializer := JSON_stringify : JsValue → string.

(** What [res.status(n).send(b)] throws when [n] is not a status code is
    the platform's too: [status_error n] is the [String(error)] of it. *)
Class HttpLibrary := status_error : Z → string.

(** ** Messages exchanged with the renderer *)

Module HttpRequestEvent.
Record t := mk {
  method : string;
  path : string;
  headers : gmap string string;
  body : string;
  request_id : Z
}.
End HttpRequestEvent.

Module HttpResponseEvent.
Record t := mk {
  request_id : Z;
  status : Z;
  body : string
}.
End HttpResponseEvent.

(** ** The HTTP side *)

(** A value of [req.headers]: a string, a non-empty array of strings, or
    undefined. *)
Inductive HeaderValue :=
| HvString (value : string)
| HvArray (first : string) (rest : list string)
| HvUndefined.

Record Request := {
  req_method : string;
  req_path : string;
  req_headers : list (string * HeaderValue);
  req_body : JsValue
}.

(** What a request carries, as the body parsers of lines 38-39 see it:
    nothing, a JSON text that [express.json] accepted (an object or an
    array, given here by its value), or any other text, which
    [express.text] takes. *)
Inductive Payload :=
| NoPayload
| JsonPayload (value : JsValue)
| TextPayload (text : string).

(** [req.body] when the catch-all route runs.  The parsers start from the
    empty object and leave it there when there is nothing to parse. *)
Definition parsed_body (payload : Payload) : JsValue :=
  match payload with
  | NoPayload => JsObject []
  | JsonPayload value => value
  | TextPayload text => JsString text
  end.

(** What was put on [res] when the reply was sent: the status, the
    headers set by the file and by its cors middleware, and the body. *)
Record Reply := {
  reply_status : Z;
  reply_headers : gmap string string;
  reply_body : string
}.

(** [res.header(name, value)] *)
Definition res_header (name value : string) (h : gmap string string)
  : gmap string string :=
  <[name := value]> h.

(** The five [res.header] calls of both exits of the catch-all route
    (lines 144-148 and 152-156; the OPTIONS route, which is never
    called, has them too). *)
Definition cross_origin (h : gmap string string) : gmap string string :=
  res_header "Access-Control-Allow-Private-Network" "true"
    (res_header "Access-Control-Expose-Headers" "*"
      (res_header "Access-Control-Allow-Methods" "*"
        (res_header "Access-Control-Allow-Headers" "*"
          (res_header "Access-Control-Allow-Origin" "*" h)))).


(** Lines 99-106: one string per header, the first element of an array. *)
Definition convert_headers (entries : list (string * HeaderValue))
  : gmap string string :=
  foldl (λ headers entry,
           match entry.2 with
           | HvString value => <[entry.1 := value]> headers
           | HvArray first _ => <[entry.1 := first]> headers
           | HvUndefined => headers
           end) ∅ entries.

(** Outcome of [mainWindow.webContents.send]: it returns, or it throws a
    value whose [String(error)] is [msg]. *)
Inductive SendResult :=
| SendOk
| SendThrows (msg : string).

(** ** The promise and the state of the process *)

Inductive PromiseState :=
| Pending
| Fulfilled (response : HttpResponseEvent.t)
| Rejected (error : string).

(** One invocation of the catch-all route: the headers found on [res],
    its promise, whether the handler is suspended at [await], and what it
    has sent to the HTTP client, each reply with the time of writing. *)
Record Call := {
  res_init : gmap string string;
  promise : PromiseState;
  awaiting : bool;
  sent : list (Z * Reply)
}.

(** A timer set at line 129: when it is due, and the [request_id] its
    callback closes over. *)
Record Timer := {
  due : Z;
  timer_request_id : Z
}.

Record State := {
  requestIdCounter : Z;
  pendingRequests : gmap Z nat;
  calls : list Call;
  timers : gmap nat Timer;
  now : Z;
  sendLog : list (nat * HttpRequestEvent.t * SendResult);
  closedServers : list nat
}.

Definition init : State := {|
  requestIdCounter := 1;
  pendingRequests := ∅;
  calls := [];
  timers := ∅;
  now := 0;
  sendLog := [];
  closedServers := []
|}.

Definition with_pending (f : gmap Z nat → gmap Z nat) (s : State) : State :=
  {| requestIdCounter := requestIdCounter s;
     pendingRequests := f (pendingRequests s);
     calls := calls s;
     timers := timers s;
     now := now s;
     sendLog := sendLog s;
     closedServers := closedServers s |}.

Definition with_calls (f : list Call → list Call) (s : State) : State :=
  {| requestIdCounter := requestIdCounter s;
     pendingRequests := pendingRequests s;
     calls := f (calls s);
     timers := timers s;
     now := now s;
     sendLog := sendLog s;
     closedServers := closedServers s |}.

Definition with_timers (f : gmap nat Timer → gmap nat Timer) (s : State)
  : State :=
  {| requestIdCounter := requestIdCounter s;
     pendingRequests := pendingRequests s;
     calls := calls s;
     timers := f (timers s);
     now := now s;
     sendLog := sendLog s;
     closedServers := closedServers s |}.

(** [pendingRequests.set(request_id, resolve)], line 126. *)
Definition register (request_id : Z) (resolver : nat) (table : gmap Z nat)
  : gmap Z nat :=
  <[request_id := resolver]> table.




(** The status codes that [res.status(n).send(b)] accepts. *)
Definition valid_status (n : Z) : bool := (100 <=? n) && (n <=? 999).

(** Events of the loop.  [i] names the server instance (the call of
    [startHttpServer]) whose callback runs; [h0] is the header set the
    middleware left on [res].  [EvOptions] is an OPTIONS request, which
    the cors middleware answers; [EvManifest] and [EvRequest] are the
    manifest route and the catch-all route being called. *)
Inductive Event :=
| EvOptions (i : nat) (h0 : gmap string string)
| EvManifest (i : nat) (h0 : gmap string string)
| EvRequest (i : nat) (req : Request) (h0 : gmap string string)
            (outcome : SendResult)
| EvIpcMessage (i : nat) (channel : string) (response : HttpResponseEvent.t)
| EvTimeout (k : nat)
| EvTick (d : Z)
| EvCleanup (i : nat).

Section Bridge.

Context {serializer : Serializer} {library : HttpLibrary}.

(** *** The manifest route *)



(** *** The catch-all route, lines 94-159 *)

(** Lines 108-114. *)
Definition body_string (req_body : JsValue) : string :=
  match req_body with
  | JsString s => s
  | _ => if truthy req_body then JSON_stringify req_body else ""
  end.

Definition request_event (req : Request) (request_id : Z)
  : HttpRequestEvent.t :=
  {| HttpRequestEvent.method := req_method req;
     HttpRequestEvent.path := req_path req;
     HttpRequestEvent.headers := convert_headers (req_headers req);
     HttpRequestEvent.body := body_string (req_body req);
     HttpRequestEvent.request_id := request_id |}.

(** Lines 144-149. *)
Definition forwarded_reply (h0 : gmap string string)
           (response : HttpResponseEvent.t) : Reply :=
  {| reply_status := HttpResponseEvent.status response;
     reply_headers := cross_origin h0;
     reply_body := HttpResponseEvent.body response |}.

(** Lines 150-158; [msg] is [String(error)]. *)
Definition error_reply (h0 : gmap string string) (msg : string) : Reply :=
  {| reply_status := 500;
     reply_headers := cross_origin h0;
     reply_body := JSON_stringify (JsObject [("error", JsString msg)]) |}.

(** [String(new Error('Request timeout'))] *)
Definition timeout_error : string := "Error: Request timeout".

(** Lines 144-158 once the promise is fulfilled: the response is
    forwarded, unless its status is not a status code; then line 149
    throws and the [catch] block answers. *)
Definition response_reply (h0 : gmap string string)
           (response : HttpResponseEvent.t) : Reply :=
  if valid_status (HttpResponseEvent.status response)
  then forwarded_reply h0 response
  else error_reply h0 (status_error (HttpResponseEvent.status response)).

(** What the handler does when its promise settles while it is
    suspended at line 141. *)
Definition continuation (t : Z) (c : Call) (outcome : PromiseState)
  : list (Z * Reply) :=
  match outcome with
  | Pending => []
  | Fulfilled response => [(t, response_reply (res_init c) response)]
  | Rejected msg => [(t, error_reply (res_init c) msg)]
  end.

(** Settling a promise: only a pending promise changes, and only a
    suspended handler is resumed. *)
Definition settle (t : Z) (outcome : PromiseState) (c : Call) : Call :=
  match promise c with
  | Pending =>
      {| res_init := res_init c;
         promise := outcome;
         awaiting := false;
         sent := if awaiting c then sent c ++ continuation t c outcome
                 else sent c |}
  | _ => c
  end.

(** Calling the [resolve] (resp. [reject]) of call [k]. *)
Definition resolve (k : nat) (response : HttpResponseEvent.t) (s : State)
  : State :=
  with_calls (alter (settle (now s) (Fulfilled response)) k) s.

Definition reject (k : nat) (msg : string) (s : State) : State :=
  with_calls (alter (settle (now s) (Rejected msg)) k) s.

(** Lines 96-158 up to the suspension at [await], or through the
    [catch] block when [send] throws.  Returns the identifier drawn. *)
Definition handle_request (i : nat) (req : Request)
           (h0 : gmap string string) (outcome : SendResult) (s : State)
  : Z * State :=
  let request_id := requestIdCounter s in
  let requestEvent := request_event req request_id in
  let k := length (calls s) in
  let call :=
    match outcome with
    | SendOk =>
        {| res_init := h0; promise := Pending; awaiting := true;
           sent := [] |}
    | SendThrows msg =>
        {| res_init := h0; promise := Pending; awaiting := false;
           sent := [(now s, error_reply h0 msg)] |}
    end in
  (request_id,
   {| requestIdCounter := request_id + 1;
      pendingRequests := register request_id k (pendingRequests s);
      calls := calls s ++ [call];
      timers := <[k := {| due := now s + 30000;
                          timer_request_id := request_id |}]> (timers s);
      now := now s;
      sendLog := sendLog s ++ [(i, requestEvent, outcome)];
      closedServers := closedServers s |}).

(** *** The [ipc-message] listener, lines 82-91 *)
Definition on_ipc_message (channel : string)
           (response : HttpResponseEvent.t) (s : State) : State :=
  if decide (channel = "http-response") then
    match pendingRequests s !! HttpResponseEvent.request_id response with
    | Some resolver =>
        with_pending (delete (HttpResponseEvent.request_id response))
          (resolve resolver response s)
    | None => s
    end
  else s.

(** *** The timer callback, lines 129-134, of call [k] *)
Definition on_timeout (request_id : Z) (k : nat) (s : State) : State :=
  match pendingRequests s !! request_id with
  | Some _ =>
      reject k timeout_error (with_pending (delete request_id) s)
  | None => s
  end.

(** *** The cleanup function, lines 185-192: [server.close] only

    Closing the listener is recorded; it reaches nothing that the routes,
    the message listener or the timers read.  The connections accepted
    before it stay open, so a route can still be called afterwards;
    turning away new connections is the listener's doing. *)
Definition cleanup (i : nat) (s : State) : State :=
  {| requestIdCounter := requestIdCounter s;
     pendingRequests := pendingRequests s;
     calls := calls s;
     timers := timers s;
     now := now s;
     sendLog := sendLog s;
     closedServers := closedServers s ++ [i] |}.

Definition tick (d : Z) (s : State) : State :=
  {| requestIdCounter := requestIdCounter s;
     pendingRequests := pendingRequests s;
     calls := calls s;
     timers := timers s;
     now := now s + d;
     sendLog := sendLog s;
     closedServers := closedServers s |}.

(** *** One turn of the event loop

    [None] when the event cannot happen: a timer that is not set or
    not yet due, time running backwards. *)
Definition step (s : State) (ev : Event) : option State :=
  match ev with
  | EvOptions _ _ => Some s
  | EvManifest _ _ => Some s
  | EvRequest i req h0 outcome => Some (handle_request i req h0 outcome s).2
  | EvIpcMessage _ channel response => Some (on_ipc_message channel response s)
  | EvTimeout k =>
      match timers s !! k with
      | Some t =>
          if due t <=? now s
          then Some (on_timeout (timer_request_id t) k
                       (with_timers (delete k) s))
          else None
      | None => None
      end
  | EvTick d => if 0 <=? d then Some (tick d s) else None
  | EvCleanup i => Some (cleanup i s)
  end.

Fixpoint run (s : State) (tr : list Event) : option State :=
  match tr with
  | [] => Some s
  | ev :: tr' =>
      match step s ev with
      | Some s' => run s' tr'
      | None => None
      end
  end.

Definition reachable (s : State) : Prop := ∃ tr, run init tr = Some s.

(** *** Observations on a run *)

(** The identifiers drawn along a run, each with the instance whose
    route drew it, in the order of the requests. *)
Fixpoint assignments (s : State) (tr : list Event) : list (nat * Z) :=
  match tr with
  | [] => []
  | ev :: tr' =>
      match step s ev with
      | None => []
      | Some s' =>
          match ev with
          | EvRequest i req h0 outcome =>
              [(i, (handle_request i req h0 outcome s).1)]
          | _ => []
          end ++ assignments s' tr'
      end
  end.

(** The events of a run that took the entry of [N] out of the table. *)
Fixpoint removals (N : Z) (s : State) (tr : list Event) : list Event :=
  match tr with
  | [] => []
  | ev :: tr' =>
      match step s ev with
      | None => []
      | Some s' =>
          match pendingRequests s !! N, pendingRequests s' !! N with
          | Some _, None => [ev]
          | _, _ => []
          end ++ removals N s' tr'
      end
  end.

(** Whether an event is a message on the response channel for [N]. *)
Definition replies_to (N : Z) (ev : Event) : bool :=
  match ev with
  | EvIpcMessage _ channel response =>
      bool_decide (channel = "http-response") &&
      (HttpResponseEvent.request_id response =? N)
  | _ => false
  end.

End Bridge.

(** ** Invariant of the reachable states *)

(** The identifier drawn by the call with handle [k]. *)
Definition id_of (k : nat) : Z := Z.of_nat k + 1.

(** Where an identifier stands: not drawn yet (or never to be drawn),
    drawn and in the table, drawn and no longer in the table. *)
Inductive EntryStatus := Unissued | Registered | Removed.

Definition entry_status (N : Z) (s : State) : EntryStatus :=
  if decide (1 ≤ N < requestIdCounter s) then
    match pendingRequests s !! N with
    | Some _ => Registered
    | None => Removed
    end
  else Unissued.

(** How many times the entry of [N] must have left the table so far. *)
Definition removed_count (N : Z) (s : State) : nat :=
  match entry_status N s with
  | Removed => 1
  | _ => 0
  end.

(** The two events that take an entry out: a response event for [N], or
    the timer of the call that drew [N]. *)
Definition removes (N : Z) (ev : Event) : Prop :=
  (∃ i response, ev = EvIpcMessage i "http-response" response ∧
                 HttpResponseEvent.request_id response = N) ∨
  (∃ k, ev = EvTimeout k ∧ id_of k = N).

Record inv (s : State) : Prop := {
  inv_counter : requestIdCounter s = id_of (length (calls s));
  inv_pending : ∀ N k, pendingRequests s !! N = Some k →
    N = id_of k ∧ is_Some (timers s !! k) ∧
    ∃ c, calls s !! k = Some c ∧ promise c = Pending;
  inv_timers : ∀ k t, timers s !! k = Some t →
    timer_request_id t = id_of k ∧ (k < length (calls s))%nat;
  inv_log_length : length (sendLog s) = length (calls s);
  inv_log : ∀ k entry, sendLog s !! k = Some entry →
    HttpRequestEvent.request_id entry.1.2 = id_of k
}.

(** ** The life of one forwarded request

    [N] was registered for call [k] with deadline [D]; [c0] is the call
    as the handler left it.  Either the entry and its timer are still in
    place and the call is untouched, or the timer has fired at some time
    [t] not before [D], the entry is gone and the promise was rejected
    with the timeout error. *)

Definition in_flight (N : Z) (k : nat) (D : Z) (c0 : Call) (s : State)
  : Prop :=
  pendingRequests s !! N = Some k ∧
  timers s !! k = Some {| due := D; timer_request_id := N |} ∧
  calls s !! k = Some c0.

Section Outcome.

Context {serializer : Serializer} {library : HttpLibrary}.

Definition timed_out (N : Z) (k : nat) (D : Z) (c0 : Call) (s : State)
  : Prop :=
  pendingRequests s !! N = None ∧
  timers s !! k = None ∧
  ∃ t, D ≤ t ≤ now s ∧
       calls s !! k = Some (settle t (Rejected timeout_error) c0).

End Outcome.

(** ** What a call can look like

    [outcome] is what the send of the call did.  After a send that
    returned, the handler is suspended with nothing written, or it was
    resumed by a response and has answered with it, or it was resumed by
    the timeout and has written the fallback.  After a send that threw, the
    handler has written the failure and is finished; its promise may
    still be settled, with no effect on the caller. *)

Section CallStates.

Context {serializer : Serializer} {library : HttpLibrary}.

Definition call_state (outcome : SendResult) (c : Call) : Prop :=
  match outcome with
  | SendOk =>
      (awaiting c = true ∧ promise c = Pending ∧ sent c = []) ∨
      (awaiting c = false ∧
       ∃ t response, promise c = Fulfilled response ∧
                     sent c = [(t, response_reply (res_init c) response)]) ∨
      (awaiting c = false ∧
       ∃ t, promise c = Rejected timeout_error ∧
            sent c = [(t, error_reply (res_init c) timeout_error)])
  | SendThrows msg =>
      awaiting c = false ∧
      (∃ t, sent c = [(t, error_reply (res_init c) msg)]) ∧
      (promise c = Pending ∨ (∃ response, promise c = Fulfilled response) ∨
       promise c = Rejected timeout_error)
  end.

(** Every call has its line in the log of sends and looks as that line
    allows; its promise is pending exactly while its identifier is in
    the table; a response it was resolved with carries its identifier. *)
Definition calls_inv (s : State) : Prop :=
  ∀ k c, calls s !! k = Some c →
    ∃ i req outcome,
      sendLog s !! k = Some (i, request_event req (id_of k), outcome) ∧
      call_state outcome c ∧
      (promise c = Pending ↔ pendingRequests s !! id_of k = Some k) ∧
      (∀ response, promise c = Fulfilled response →
                   HttpResponseEvent.request_id response = id_of k).

End CallStates.

(** No timer is set for later than thirty seconds from now. *)
Definition timers_due (s : State) : Prop :=
  ∀ k t, timers s !! k = Some t → due t ≤ now s + 30000.

(** ** Starting the listener, lines 168-182

    [startHttpServer] is suspended on a promise whose executor creates
    the server, asks it to listen and subscribes to its errors.  The
    events are those of the server. *)

Inductive ServerEvent :=
| SrvListening
| SrvError (code : option string).

Inductive ServerPromise :=
| SrvPending
| SrvFulfilled
| SrvRejected (code : option string).

Record Startup := {
  server_promise : ServerPromise;
  exit_code : option Z;
  console : list string
}.

Definition startup_init : Startup :=
  {| server_promise := SrvPending; exit_code := None; console := [] |}.

(** The callback of [listen] (lines 171-173) and the handler of
    ['error'] (lines 175-181); nothing runs once the process has
    exited. *)
Definition server_event (st : Startup) (ev : ServerEvent) : Startup :=
  match exit_code st with
  | Some _ => st
  | None =>
      match ev with
      | SrvListening =>
          {| server_promise := server_promise st;
             exit_code := None;
             console := console st ++
               ["HTTPS server listening on https://127.0.0.1:3321"] |}
      | SrvError code =>
          if decide (code = Some "EADDRINUSE") then
            {| server_promise := server_promise st;
               exit_code := Some 1;
               console := console st ++ ["Port 2121 is already in use!"] |}
          else
            {| server_promise :=
                 match server_promise st with
                 | SrvPending => SrvRejected code
                 | settled => settled
                 end;
               exit_code := None;
               console := console st |}
      end
  end.

(** Where [startHttpServer] stands: suspended at line 168, the process
    gone, its promise rejected by the error, or past line 185 with the
    cleanup function returned. *)
Inductive StartOutcome :=
| StartSuspended
| StartExited (code : Z)
| StartFailed (code : option string)
| StartReturned.

Definition start_outcome (st : Startup) : StartOutcome :=
  match exit_code st with
  | Some code => StartExited code
  | None =>
      match server_promise st with
      | SrvPending => StartSuspended
      | SrvFulfilled => StartReturned
      | SrvRejected code => StartFailed code
      end
  end.

(** The codes of the errors among the events, in order. *)
Definition error_codes (evs : list ServerEvent) : list (option string) :=
  omap (λ ev, match ev with
              | SrvError code => Some code
              | SrvListening => None
              end) evs.

(** ** Sample data for the examples *)

Instance json_text_serializer : Serializer := json_text.

(** The message of Node for a status that is not a status code. *)
Instance node_http : HttpLibrary :=
  λ status, "RangeError [ERR_HTTP_INVALID_STATUS_CODE]: Invalid status code: "
            +:+ pretty status.

(** A request without body. *)
Definition get_foo : Request :=
  {| req_method := "GET"; req_path := "/foo";
     req_headers := [("x", HvString "1")];
     req_body := parsed_body NoPayload |}.

Definition post_bar : Request :=
  {| req_method := "POST"; req_path := "/bar";
     req_headers := [("content-type", HvString "application/json")];
     req_body := parsed_body (JsonPayload (JsObject [("amount", JsNumber 5)])) |}.



Definition ok_for (N : Z) : HttpResponseEvent.t :=
  {| HttpResponseEvent.request_id := N;
     HttpResponseEvent.status := 200;
     HttpResponseEvent.body := "ok" |}.

(** The state a run from [init] ends in ([init] itself if the run is
    not possible). *)
Definition after (tr : list Event) : State := default init (run init tr).

(** Two requests in flight, the first through instance 0 and the second
    through instance 1. *)
Definition two_requests : list Event :=
  [EvRequest 0 get_foo ∅ SendOk; EvRequest 1 post_bar ∅ SendOk].

(** One request answered by the renderer; later its timer fires and the
    renderer answers again. *)
Definition answered_twice : list Event :=
  [EvRequest 0 get_foo ∅ SendOk;
   EvIpcMessage 0 "http-response" (ok_for 1);
   EvTick 30000;
   EvTimeout 0;
   EvIpcMessage 0 "http-response" (ok_for 1)].


(** A window that is gone: [send] throws. *)
Definition destroyed : string := "TypeError: Object has been destroyed".

Definition failed_send : list Event :=
  [EvRequest 0 get_foo ∅ (SendThrows destroyed)].

(** A request in flight when the cleanup function is called. *)
Definition closed_in_flight : list Event :=
  [EvRequest 0 get_foo ∅ SendOk; EvCleanup 0].

(** Both requests in flight, thirty seconds later. *)
Definition two_due : list Event := two_requests ++ [EvTick 30000].

(** Headers as Node hands them over: a string, an array, and a name
    without value. *)
Definition sample_headers : list (string * HeaderValue) :=
  [("x", HvString "1");
   ("set-cookie", HvArray "a=1" ["b=2"]);
   ("x-gone", HvUndefined)].

(** * Properties *)

Section Properties.

Context {serializer : Serializer} {library : HttpLibrary}.

(** ** Runs *)

Lemma run_app s tr1 tr2 :
  run s (tr1 ++ tr2) = run s tr1 ≫= λ s1, run s1 tr2.
Proof.
  revert s. induction tr1 as [|ev tr1 IH]; intros s; simpl; [done|].
  destruct (step s ev); simpl; auto.
Qed.

Lemma reachable_init : reachable init.
Proof. by exists []. Qed.

(** ** The invariant *)

Lemma id_of_inj k k' : id_of k = id_of k' → k = k'.
Proof. unfold id_of. lia. Qed.

Lemma settle_pending t outcome c :
  promise c = Pending → promise (settle t outcome c) = outcome.
Proof. intros H. unfold settle. by rewrite H. Qed.

Lemma inv_init : inv init.
Proof.
  split; simpl.
  - reflexivity.
  - intros N k H. by rewrite lookup_empty in H.
  - intros k t H. by rewrite lookup_empty in H.
  - reflexivity.
  - intros k entry H. by destruct k.
Qed.

Lemma inv_handle_request i req h0 outcome s :
  inv s → inv (handle_request i req h0 outcome s).2.
Proof.
  intros [Hc Hp Ht Hl Hg]. split; simpl; unfold register.
  - rewrite length_app. simpl. rewrite Hc. unfold id_of. lia.
  - intros N k. rewrite lookup_insert. case_decide as HN.
    + intros [= <-]. subst N. split; [done|]. split.
      * rewrite lookup_insert_eq. eauto.
      * eexists. split; [apply list_lookup_middle; done|].
        by destruct outcome.
    + intros HNk. destruct (Hp N k HNk) as (-> & [t Hk] & c & Hck & Hpc).
      destruct (Ht k t Hk) as [_ Hlt].
      split; [done|]. split.
      * rewrite lookup_insert_ne by lia. eauto.
      * exists c. split; [|done]. by rewrite lookup_app_l.
  - intros k t. rewrite lookup_insert. case_decide as Hk.
    + intros [= <-]. subst k. simpl. split; [done|].
      rewrite length_app. simpl. lia.
    + intros Hkt. destruct (Ht k t Hkt) as [? ?]. split; [done|].
      rewrite length_app. simpl. lia.
  - rewrite !length_app. simpl. lia.
  - intros k entry Hk. apply lookup_app_Some in Hk as [Hk|[Hge Hk]].
    + by apply Hg.
    + apply list_lookup_singleton_Some in Hk as [Hk <-]. simpl.
      rewrite Hc. f_equal. lia.
Qed.

Lemma inv_on_ipc_message channel response s :
  inv s → inv (on_ipc_message channel response s).
Proof.
  intros Hinv. unfold on_ipc_message. case_decide; [|done].
  destruct (pendingRequests s !! _) as [k|] eqn:HN; [|done].
  destruct Hinv as [Hc Hp Ht Hl Hg]. destruct (Hp _ _ HN) as (HNk & _ & _).
  split; simpl.
  - by rewrite length_alter.
  - intros M k'. rewrite lookup_delete. case_decide as HM; [done|].
    intros HMk. destruct (Hp M k' HMk) as (-> & Htk & c & Hck & Hpc).
    split; [done|]. split; [done|]. exists c. split; [|done].
    rewrite list_lookup_alter_ne; [done|].
    intros ->. congruence.
  - intros k' t Hk't. rewrite length_alter. by apply Ht.
  - by rewrite length_alter.
  - done.
Qed.

Lemma inv_on_timeout k t s :
  inv s → timers s !! k = Some t →
  inv (on_timeout (timer_request_id t) k (with_timers (delete k) s)).
Proof.
  intros [Hc Hp Ht Hl Hg] Hkt. destruct (Ht k t Hkt) as [Hid Hlt].
  unfold on_timeout. simpl.
  destruct (pendingRequests s !! timer_request_id t) as [k0|] eqn:HN.
  - split; simpl.
    + by rewrite length_alter.
    + intros M k'. rewrite lookup_delete. case_decide as HM; [done|].
      intros HMk. destruct (Hp M k' HMk) as (-> & Htk & c & Hck & Hpc).
      assert (k' ≠ k) by (intros ->; congruence).
      split; [done|]. split.
      * by rewrite lookup_delete_ne.
      * exists c. split; [|done]. by rewrite list_lookup_alter_ne.
    + intros k' t'. rewrite length_alter, lookup_delete.
      case_decide; [done|]. apply Ht.
    + by rewrite length_alter.
    + done.
  - split; simpl.
    + done.
    + intros M k' HMk. destruct (Hp M k' HMk) as (-> & Htk & Hcall).
      assert (k' ≠ k) by (intros ->; congruence).
      split; [done|]. split; [|done]. by rewrite lookup_delete_ne.
    + intros k' t'. rewrite lookup_delete. case_decide; [done|]. apply Ht.
    + done.
    + done.
Qed.

Lemma inv_step s ev s' : inv s → step s ev = Some s' → inv s'.
Proof.
  intros Hinv. destruct ev as [i h0|i h0|i req h0 outcome|i ch r|k|d|i]; simpl.
  - by intros [= <-].
  - by intros [= <-].
  - intros [= <-]. by apply inv_handle_request.
  - intros [= <-]. by apply inv_on_ipc_message.
  - destruct (timers s !! k) as [t|] eqn:Hkt; [|done].
    destruct (due t <=? now s); [|done].
    intros [= <-]. by apply inv_on_timeout.
  - destruct (0 <=? d); [|done]. intros [= <-].
    destruct Hinv as [Hc Hp Ht Hl Hg]. by split.
  - intros [= <-]. destruct Hinv as [Hc Hp Ht Hl Hg]. by split.
Qed.

Lemma inv_run tr : ∀ s s', inv s → run s tr = Some s' → inv s'.
Proof.
  induction tr as [|ev tr IH]; intros s s' Hinv; simpl.
  - by intros [= <-].
  - destruct (step s ev) as [s1|] eqn:Hstep; [|done].
    apply IH. by eapply inv_step.
Qed.

Lemma inv_reachable s : reachable s → inv s.
Proof. intros [tr Htr]. eapply inv_run; [apply inv_init | done]. Qed.

(** ** Correlation *)

Lemma on_ipc_message_hit response s k :
  pendingRequests s !! HttpResponseEvent.request_id response = Some k →
  on_ipc_message "http-response" response s =
  with_pending (delete (HttpResponseEvent.request_id response))
    (resolve k response s).
Proof.
  intros Hk. unfold on_ipc_message. rewrite decide_True by done.
  by rewrite Hk.
Qed.

Lemma on_ipc_message_miss channel response s :
  pendingRequests s !! HttpResponseEvent.request_id response = None →
  on_ipc_message channel response s = s.
Proof.
  intros HN. unfold on_ipc_message. case_decide; [|done]. by rewrite HN.
Qed.

(** C1. A response event for [N] that arrives while [N] is in the table
    settles the promise of the call registered under [N] with that very
    event, resumes that call if it is suspended (the call then answers
    with the response, or with the fallback if the status of the
    response is not a status code), removes the entry, and leaves every
    other call and every other entry as they were, however many entries
    the table holds. *)
Theorem correlation_correct s i response k :
  reachable s →
  pendingRequests s !! HttpResponseEvent.request_id response = Some k →
  ∃ c s',
    step s (EvIpcMessage i "http-response" response) = Some s' ∧
    calls s !! k = Some c ∧ promise c = Pending ∧
    (∃ c', calls s' !! k = Some c' ∧
           promise c' = Fulfilled response ∧
           sent c' = if awaiting c
                     then sent c ++
                          [(now s, response_reply (res_init c) response)]
                     else sent c) ∧
    pendingRequests s' !! HttpResponseEvent.request_id response = None ∧
    (∀ k', k' ≠ k → calls s' !! k' = calls s !! k') ∧
    (∀ M k', M ≠ HttpResponseEvent.request_id response →
             pendingRequests s !! M = Some k' →
             k' ≠ k ∧ pendingRequests s' !! M = Some k' ∧
             calls s' !! k' = calls s !! k').
Proof.
  intros Hreach HN. pose proof (inv_reachable s Hreach) as [Hc Hp Ht _ _].
  destruct (Hp _ _ HN) as (HNk & _ & c & Hck & Hpc).
  exists c, (on_ipc_message "http-response" response s).
  rewrite (on_ipc_message_hit _ _ _ HN). simpl.
  split; [by rewrite (on_ipc_message_hit _ _ _ HN)|].
  split; [done|]. split; [done|]. split.
  - exists (settle (now s) (Fulfilled response) c).
    rewrite list_lookup_alter_eq, Hck. split; [done|].
    unfold settle. rewrite Hpc. simpl. by destruct (awaiting c).
  - split; [apply lookup_delete_eq|]. split.
    + intros k' Hk'. by rewrite list_lookup_alter_ne.
    + intros M k' HM HMk. destruct (Hp _ _ HMk) as (HMk' & _).
      assert (k' ≠ k) by (intros ->; congruence).
      split; [done|]. split.
      * by rewrite lookup_delete_ne.
      * by rewrite list_lookup_alter_ne.
Qed.

(** ** Identifiers *)

Lemma step_counter s ev s' :
  step s ev = Some s' →
  requestIdCounter s' =
  requestIdCounter s + match ev with EvRequest _ _ _ _ => 1 | _ => 0 end.
Proof.
  destruct ev as [i h0|i h0|i req h0 outcome|i ch r|k|d|i]; simpl.
  - intros [= <-]. lia.
  - intros [= <-]. lia.
  - by intros [= <-].
  - intros [= <-]. unfold on_ipc_message. case_decide; [|lia].
    destruct (pendingRequests s !! _); simpl; lia.
  - destruct (timers s !! k) as [t|]; [|done].
    destruct (due t <=? now s); [|done]. intros [= <-].
    unfold on_timeout. simpl.
    destruct (pendingRequests s !! _); simpl; lia.
  - destruct (0 <=? d); [|done]. intros [= <-]. simpl. lia.
  - intros [= <-]. simpl. lia.
Qed.

Lemma assignments_lookup tr : ∀ s j i N,
  assignments s tr !! j = Some (i, N) →
  N = requestIdCounter s + Z.of_nat j.
Proof.
  induction tr as [|ev tr IH]; intros s j i N; simpl; [done|].
  destruct (step s ev) as [s1|] eqn:Hstep; [|done].
  pose proof (step_counter _ _ _ Hstep) as Hcnt.
  destruct ev as [?? |?? |i0 req h0 outcome|??? |? |? |?]; simpl;
    try (intros Hj; apply IH in Hj; lia).
  destruct j as [|j]; simpl.
  - intros [= _ <-]. lia.
  - intros Hj. apply IH in Hj. lia.
Qed.

Lemma consecutive_sorted (l : list Z) : ∀ c,
  (∀ j N, l !! j = Some N → N = c + Z.of_nat j) →
  StronglySorted Z.lt l ∧ NoDup l.
Proof.
  induction l as [|x l IH]; intros c Hl.
  - split; constructor.
  - assert (x = c) as -> by (rewrite (Hl 0%nat x eq_refl); lia).
    destruct (IH (c + 1)) as [Hsorted Hnodup].
    { intros j N Hj. rewrite (Hl (S j) N Hj). lia. }
    assert (Forall (Z.lt c) l) as Hall.
    { apply Forall_lookup. intros j N Hj. rewrite (Hl (S j) N Hj). lia. }
    split; constructor; try done.
    intros Hin. rewrite Forall_forall in Hall. specialize (Hall c Hin). lia.
Qed.

(** C3. The counter starts at 1; the catch-all route draws its current
    value and adds one to it whether the send succeeds or throws, and no
    other event changes it; so the identifiers drawn along any run are
    strictly increasing in the order of the requests, and pairwise
    distinct. *)
Theorem identifiers_distinct_increasing :
  requestIdCounter init = 1 ∧
  (∀ s i req h0 outcome,
     (handle_request i req h0 outcome s).1 = requestIdCounter s ∧
     requestIdCounter (handle_request i req h0 outcome s).2 =
     requestIdCounter s + 1) ∧
  (∀ s ev s', step s ev = Some s' →
     requestIdCounter s' =
     requestIdCounter s + match ev with EvRequest _ _ _ _ => 1 | _ => 0 end) ∧
  (∀ tr, StronglySorted Z.lt (assignments init tr).*2 ∧
         NoDup (assignments init tr).*2).
Proof.
  split; [done|]. split; [done|]. split; [apply step_counter|].
  intros tr. apply (consecutive_sorted _ 1).
  intros j N. rewrite list_lookup_fmap.
  destruct (assignments init tr !! j) as [[i N']|] eqn:Hj; [|done].
  intros [= <-]. by apply assignments_lookup in Hj.
Qed.

(** C10. One counter and one table serve every instance: identifiers
    drawn by the routes of different instances never coincide, and an
    entry whose request was sent to the window of instance [i] is
    resolved by a response event heard on the window of any instance
    [j]. *)
Theorem registry_shared_across_instances :
  (∀ tr j1 j2 i1 i2 N1 N2,
     assignments init tr !! j1 = Some (i1, N1) →
     assignments init tr !! j2 = Some (i2, N2) →
     j1 ≠ j2 → N1 ≠ N2) ∧
  (∀ s k i j requestEvent outcome response,
     reachable s →
     sendLog s !! k = Some (i, requestEvent, outcome) →
     pendingRequests s !! HttpResponseEvent.request_id response = Some k →
     HttpRequestEvent.request_id requestEvent =
     HttpResponseEvent.request_id response ∧
     ∃ s' c,
       step s (EvIpcMessage j "http-response" response) = Some s' ∧
       pendingRequests s' !! HttpResponseEvent.request_id response = None ∧
       calls s' !! k = Some c ∧ promise c = Fulfilled response).
Proof.
  split.
  - intros tr j1 j2 i1 i2 N1 N2 H1 H2 Hne.
    apply assignments_lookup in H1, H2. lia.
  - intros s k i j requestEvent outcome response Hreach Hlog HN.
    pose proof (inv_reachable s Hreach) as [Hc Hp Ht Hl Hg].
    destruct (Hp _ _ HN) as (HNk & _ & c & Hck & Hpc).
    split; [rewrite HNk; apply (Hg _ _ Hlog)|].
    exists (on_ipc_message "http-response" response s),
           (settle (now s) (Fulfilled response) c).
    split; [done|]. rewrite (on_ipc_message_hit _ _ _ HN). simpl.
    split; [apply lookup_delete_eq|]. split.
    + by rewrite list_lookup_alter_eq, Hck.
    + by apply settle_pending.
Qed.

(** ** Removal of entries *)

Lemma pending_issued s N k :
  inv s → pendingRequests s !! N = Some k → 1 ≤ N < requestIdCounter s.
Proof.
  intros [Hc Hp Ht _ _] HN.
  destruct (Hp _ _ HN) as (-> & [t Hkt] & _).
  destruct (Ht _ _ Hkt) as [_ Hlt]. rewrite Hc. unfold id_of. lia.
Qed.

(** What one event does to the entry of [N]: nothing, register it, or
    remove it. *)
Lemma step_entry N s ev s' :
  inv s → step s ev = Some s' →
  (pendingRequests s' !! N = pendingRequests s !! N ∧
   requestIdCounter s ≤ requestIdCounter s' ∧
   (requestIdCounter s ≤ N → requestIdCounter s' ≤ N)) ∨
  (requestIdCounter s = N ∧ requestIdCounter s' = N + 1 ∧
   pendingRequests s !! N = None ∧ is_Some (pendingRequests s' !! N)) ∨
  (requestIdCounter s' = requestIdCounter s ∧
   is_Some (pendingRequests s !! N) ∧ pendingRequests s' !! N = None ∧
   removes N ev).
Proof.
  intros Hinv.
  destruct ev as [i h0|i h0|i req h0 outcome|i ch r|k|d|i]; simpl.
  - intros [= <-]. left. split; [done|]. lia.
  - intros [= <-]. left. split; [done|]. lia.
  - intros [= <-]. simpl. unfold register.
    destruct (decide (requestIdCounter s = N)) as [HN|HN].
    + right. left. subst N. split; [done|]. split; [done|]. split.
      * destruct (pendingRequests s !! requestIdCounter s) as [k|] eqn:Hk;
          [|done].
        apply (pending_issued _ _ _ Hinv) in Hk. lia.
      * rewrite lookup_insert_eq. eauto.
    + left. rewrite lookup_insert_ne by done. split; [done|]. lia.
  - intros [= <-]. unfold on_ipc_message.
    case_decide as Hch; [|left; split; [done|lia]].
    destruct (pendingRequests s !! HttpResponseEvent.request_id r) as [k|]
      eqn:Hk; [|left; split; [done|lia]].
    simpl. destruct (decide (HttpResponseEvent.request_id r = N)) as [HN|HN].
    + right. right. subst N. split; [done|]. split; [eauto|].
      split; [apply lookup_delete_eq|]. left. subst ch. eauto.
    + left. rewrite lookup_delete_ne by done. split; [done|]. lia.
  - destruct (timers s !! k) as [t|] eqn:Hkt; [|done].
    destruct (due t <=? now s); [|done]. intros [= <-].
    destruct Hinv as [Hc Hp Ht _ _]. destruct (Ht _ _ Hkt) as [Hid _].
    unfold on_timeout. simpl.
    destruct (pendingRequests s !! timer_request_id t) as [k0|] eqn:Hk;
      [|left; split; [done|simpl; lia]].
    simpl. destruct (decide (timer_request_id t = N)) as [HN|HN].
    + right. right. subst N. split; [done|]. split; [eauto|].
      split; [apply lookup_delete_eq|]. right. eauto.
    + left. rewrite lookup_delete_ne by done. split; [done|]. lia.
  - destruct (0 <=? d); [|done]. intros [= <-]. left. split; [done|].
    simpl. lia.
  - intros [= <-]. left. split; [done|]. simpl. lia.
Qed.

Lemma removals_step N s ev s' :
  inv s → step s ev = Some s' →
  let removed := match pendingRequests s !! N, pendingRequests s' !! N with
                 | Some _, None => [ev]
                 | _, _ => []
                 end in
  (length removed + removed_count N s = removed_count N s')%nat ∧
  Forall (removes N) removed.
Proof.
  intros Hinv Hstep. pose proof (inv_step _ _ _ Hinv Hstep) as Hinv'.
  unfold removed_count, entry_status.
  destruct (step_entry N _ _ _ Hinv Hstep)
    as [(Heq & Hle & Hge)|[(Hc & Hc' & Hnone & [k' Hsome])
                          |(Hc & [k Hsome] & Hnone & Hev)]].
  - rewrite Heq. destruct (pendingRequests s !! N) as [k|] eqn:HN; simpl.
    + pose proof (pending_issued _ _ _ Hinv HN).
      rewrite !decide_True by lia. by split.
    + split; [|constructor].
      repeat case_decide; try done; lia.
  - rewrite Hnone, Hsome. simpl. split; [|constructor].
    rewrite decide_False by lia. by case_decide.
  - rewrite Hsome, Hnone. simpl.
    pose proof (pending_issued _ _ _ Hinv Hsome).
    rewrite !decide_True by lia. split; [done|]. by constructor.
Qed.

Lemma removals_run N tr : ∀ s s',
  inv s → run s tr = Some s' →
  (length (removals N s tr) + removed_count N s = removed_count N s')%nat ∧
  Forall (removes N) (removals N s tr).
Proof.
  induction tr as [|ev tr IH]; intros s s' Hinv; simpl.
  - intros [= <-]. by split.
  - destruct (step s ev) as [s1|] eqn:Hstep; [|done]. intros Hrun.
    destruct (removals_step N _ _ _ Hinv Hstep) as [Hlen Hall].
    destruct (IH _ _ (inv_step _ _ _ Hinv Hstep) Hrun) as [Hlen' Hall'].
    split.
    + rewrite length_app. lia.
    + by apply Forall_app.
Qed.

(** C2. Along any run the entry of an identifier leaves the table as
    many times as [removed_count] says: once if the identifier was issued
    and is no longer in the table, not at all otherwise; the event that
    removed it is a response event for it or the timer of its call; an
    entry still in the table has its timer set; and once the entry is
    gone a further response event for the identifier changes nothing, and
    its timer finds nothing to remove and nobody to fail. *)
Theorem entry_removed_once tr s N :
  run init tr = Some s →
  length (removals N init tr) = removed_count N s ∧
  (length (removals N init tr) ≤ 1)%nat ∧
  (∀ ev, ev ∈ removals N init tr → removes N ev) ∧
  (entry_status N s = Registered →
   ∃ k t, pendingRequests s !! N = Some k ∧ timers s !! k = Some t ∧
          timer_request_id t = N) ∧
  (entry_status N s = Removed →
   (∀ i channel response,
      HttpResponseEvent.request_id response = N →
      step s (EvIpcMessage i channel response) = Some s) ∧
   (∀ k s', id_of k = N → step s (EvTimeout k) = Some s' →
            pendingRequests s' = pendingRequests s ∧ calls s' = calls s)).
Proof.
  intros Hrun.
  pose proof (inv_run _ _ _ inv_init Hrun) as Hinv.
  destruct (removals_run N _ _ _ inv_init Hrun) as [Hlen Hall].
  assert (removed_count N init = 0%nat) as Hzero.
  { unfold removed_count, entry_status.
    by rewrite decide_False by (simpl; lia). }
  rewrite Hzero, Nat.add_0_r in Hlen.
  split; [done|]. split.
  { rewrite Hlen. unfold removed_count. destruct (entry_status N s); lia. }
  split; [by apply Forall_forall|].
  unfold entry_status. split.
  - case_decide; [|done].
    destruct (pendingRequests s !! N) as [k|] eqn:HN; [|done]. intros _.
    destruct Hinv as [Hc Hp Ht _ _].
    destruct (Hp _ _ HN) as (-> & [t Hkt] & _).
    exists k, t. split; [done|]. split; [done|]. by apply Ht.
  - case_decide; [|done].
    destruct (pendingRequests s !! N) as [k|] eqn:HN; [done|]. intros _.
    split.
    + intros i channel response <-. simpl.
      by rewrite on_ipc_message_miss.
    + intros k s' <-. simpl.
      destruct (timers s !! k) as [t|] eqn:Hkt; [|done].
      destruct (due t <=? now s); [|done]. intros [= <-].
      destruct Hinv as [Hc Hp Ht _ _]. destruct (Ht _ _ Hkt) as [Hid _].
      unfold on_timeout. simpl. by rewrite Hid, HN.
Qed.

(** ** The five headers *)



(** ** From registration to the timeout *)

Lemma step_now s ev s' : step s ev = Some s' → now s ≤ now s'.
Proof.
  destruct ev as [i h0|i h0|i req h0 outcome|i ch r|k|d|i]; simpl.
  - by intros [= <-].
  - by intros [= <-].
  - by intros [= <-].
  - intros [= <-]. unfold on_ipc_message. case_decide; [|done].
    by destruct (pendingRequests s !! _).
  - destruct (timers s !! k) as [t|]; [|done].
    destruct (due t <=? now s); [|done]. intros [= <-].
    unfold on_timeout. simpl. by destruct (pendingRequests s !! _).
  - destruct (0 <=? d) eqn:Hd; [|done]. intros [= <-]. simpl. lia.
  - by intros [= <-].
Qed.

Lemma timeout_fires N k D c0 s :
  in_flight N k D c0 s → D ≤ now s →
  ∃ s', step s (EvTimeout k) = Some s' ∧ timed_out N k D c0 s'.
Proof.
  intros (HN & Hk & Hc) HD. simpl. rewrite Hk. simpl.
  destruct (D <=? now s) eqn:Hle; [|lia].
  eexists. split; [done|]. unfold on_timeout. simpl. rewrite HN.
  split; [apply lookup_delete_eq|]. split; [apply lookup_delete_eq|].
  exists (now s). simpl. split; [lia|].
  by rewrite list_lookup_alter_eq, Hc.
Qed.


(** Events other than a response for [N] keep the request in one of its
    two phases. *)
Lemma outcome_step N k D c0 s ev s' :
  inv s → N = id_of k →
  in_flight N k D c0 s ∨ timed_out N k D c0 s →
  step s ev = Some s' → replies_to N ev = false →
  in_flight N k D c0 s' ∨ timed_out N k D c0 s'.
Proof.
  intros Hinv HNk Hphase Hstep Hev.
  assert (∃ c, calls s !! k = Some c) as [ck Hck].
  { destruct Hphase as [(_ & _ & ?)|(_ & _ & t & _ & ?)]; eauto. }
  pose proof (lookup_lt_Some _ _ _ Hck) as Hlt.
  destruct Hinv as [Hc Hp Ht _ _].
  (* a state that agrees with [s] on the entry, the timer and the call *)
  assert (∀ s2, now s ≤ now s2 →
          pendingRequests s2 !! N = pendingRequests s !! N →
          timers s2 !! k = timers s !! k → calls s2 !! k = calls s !! k →
          in_flight N k D c0 s2 ∨ timed_out N k D c0 s2) as Hsame.
  { intros s2 Hnow E1 E2 E3.
    destruct Hphase as [(? & ? & ?)|(? & ? & t & ? & ?)]; [left|right];
      unfold in_flight, timed_out; rewrite E1, E2, E3.
    - done.
    - split; [done|]. split; [done|]. exists t. split; [lia|done]. }
  destruct ev as [i h0|i h0|i req h0 outcome|i ch r|k1|d|i];
    simpl in Hstep, Hev.
  - injection Hstep as <-. by apply Hsame.
  - injection Hstep as <-. by apply Hsame.
  - injection Hstep as <-. apply Hsame; simpl; unfold register.
    + done.
    + apply lookup_insert_ne. rewrite Hc, HNk. unfold id_of. lia.
    + apply lookup_insert_ne. lia.
    + by apply lookup_app_l.
  - injection Hstep as <-. unfold on_ipc_message.
    case_decide as Hch; [|by apply Hsame].
    destruct (pendingRequests s !! HttpResponseEvent.request_id r) as [k1|]
      eqn:Hk1; [|by apply Hsame].
    rewrite bool_decide_eq_true_2 in Hev by done. simpl in Hev.
    apply Z.eqb_neq in Hev.
    destruct (Hp _ _ Hk1) as (Hid & _ & _).
    apply Hsame; simpl.
    + done.
    + by apply lookup_delete_ne.
    + done.
    + apply list_lookup_alter_ne. intros ->. congruence.
  - destruct (timers s !! k1) as [t1|] eqn:Hk1; [|done].
    destruct (due t1 <=? now s) eqn:Hdue; [|done].
    injection Hstep as <-. destruct (Ht _ _ Hk1) as [Hid _].
    destruct (decide (k1 = k)) as [->|Hne].
    + destruct Hphase as [Hfl|(_ & ? & _)]; [|congruence].
      assert (t1 = {| due := D; timer_request_id := N |}) as ->.
      { destruct Hfl as (_ & ? & _). congruence. }
      right. simpl in Hdue.
      destruct (timeout_fires N k D c0 s Hfl) as (s1 & Hs1 & Hout); [lia|].
      simpl in Hs1. rewrite Hk1 in Hs1. simpl in Hs1. rewrite Hdue in Hs1.
      by injection Hs1 as <-.
    + assert (timer_request_id t1 ≠ N).
      { rewrite Hid, HNk. intros ?%id_of_inj. done. }
      unfold on_timeout. simpl.
      destruct (pendingRequests s !! timer_request_id t1); apply Hsame; simpl.
      * done.
      * by apply lookup_delete_ne.
      * by apply lookup_delete_ne.
      * by apply list_lookup_alter_ne.
      * done.
      * done.
      * by apply lookup_delete_ne.
      * done.
  - destruct (0 <=? d) eqn:Hd; [|done]. injection Hstep as <-.
    apply Hsame; simpl; [lia|done..].
  - injection Hstep as <-. by apply Hsame.
Qed.

Lemma outcome_run N k D c0 tr : ∀ s s',
  inv s → N = id_of k →
  in_flight N k D c0 s ∨ timed_out N k D c0 s →
  run s tr = Some s' →
  forallb (λ ev, negb (replies_to N ev)) tr = true →
  in_flight N k D c0 s' ∨ timed_out N k D c0 s'.
Proof.
  induction tr as [|ev tr IH]; intros s s' Hinv HNk Hphase; simpl.
  - by intros [= <-].
  - destruct (step s ev) as [s1|] eqn:Hstep; [|done].
    intros Hrun [Hev Htr]%andb_prop. apply negb_true_iff in Hev.
    apply (IH s1); try done.
    + by eapply inv_step.
    + by eapply outcome_step.
Qed.

Lemma handle_request_in_flight i req h0 outcome s :
  inv s →
  let c0 := match outcome with
            | SendOk => {| res_init := h0; promise := Pending;
                           awaiting := true; sent := [] |}
            | SendThrows msg =>
                {| res_init := h0; promise := Pending; awaiting := false;
                   sent := [(now s, error_reply h0 msg)] |}
            end in
  requestIdCounter s = id_of (length (calls s)) ∧
  in_flight (requestIdCounter s) (length (calls s)) (now s + 30000) c0
            (handle_request i req h0 outcome s).2.
Proof.
  intros [Hc Hp Ht Hl Hg]. split; [done|]. unfold in_flight, register. simpl.
  split; [apply lookup_insert_eq|]. split; [apply lookup_insert_eq|].
  by apply list_lookup_middle.
Qed.


(** ** A send that throws *)

Lemma settle_idle t outcome c :
  awaiting c = false →
  awaiting (settle t outcome c) = false ∧ sent (settle t outcome c) = sent c.
Proof.
  intros Hc. unfold settle. destruct (promise c); simpl; by rewrite ?Hc.
Qed.

Lemma alter_settle_idle t outcome k1 k c (l : list Call) :
  l !! k = Some c → awaiting c = false →
  ∃ c', alter (settle t outcome) k1 l !! k = Some c' ∧
        awaiting c' = false ∧ sent c' = sent c.
Proof.
  intros Hk Hc. destruct (decide (k1 = k)) as [->|Hne].
  - exists (settle t outcome c). rewrite list_lookup_alter_eq, Hk.
    split; [done|]. by apply settle_idle.
  - exists c. by rewrite list_lookup_alter_ne.
Qed.

(** A handler that is not suspended writes nothing more, and the log of
    sends only grows. *)
Lemma idle_step k c entry s ev s' :
  calls s !! k = Some c → awaiting c = false →
  sendLog s !! k = Some entry →
  step s ev = Some s' →
  (∃ c', calls s' !! k = Some c' ∧ awaiting c' = false ∧ sent c' = sent c) ∧
  sendLog s' !! k = Some entry.
Proof.
  intros Hk Hc Hlog.
  destruct ev as [i h0|i h0|i req h0 outcome|i ch r|k1|d|i]; simpl.
  - intros [= <-]. eauto.
  - intros [= <-]. eauto.
  - intros [= <-]. simpl. split.
    + exists c. split; [|done]. rewrite lookup_app_l; [done|].
      by eapply lookup_lt_Some.
    + rewrite lookup_app_l; [done|]. by eapply lookup_lt_Some.
  - intros [= <-]. unfold on_ipc_message. case_decide; [|eauto].
    destruct (pendingRequests s !! _); [|eauto]. simpl.
    split; [|done]. by apply alter_settle_idle.
  - destruct (timers s !! k1) as [t|]; [|done].
    destruct (due t <=? now s); [|done]. intros [= <-].
    unfold on_timeout. simpl.
    destruct (pendingRequests s !! _); [|eauto]. simpl.
    split; [|done]. by apply alter_settle_idle.
  - destruct (0 <=? d); [|done]. intros [= <-]. eauto.
  - intros [= <-]. eauto.
Qed.

Lemma idle_run k entry tr : ∀ c s s',
  calls s !! k = Some c → awaiting c = false →
  sendLog s !! k = Some entry →
  run s tr = Some s' →
  (∃ c', calls s' !! k = Some c' ∧ sent c' = sent c) ∧
  sendLog s' !! k = Some entry.
Proof.
  induction tr as [|ev tr IH]; intros c s s' Hk Hc Hlog; simpl.
  - intros [= <-]. eauto.
  - destruct (step s ev) as [s1|] eqn:Hstep; [|done]. intros Hrun.
    destruct (idle_step _ _ _ _ _ _ Hk Hc Hlog Hstep)
      as [(c1 & Hk1 & Hc1 & Hsent1) Hlog1].
    destruct (IH _ _ _ Hk1 Hc1 Hlog1 Hrun) as [(c' & Hk' & Hsent') Hlog'].
    split; [|done]. exists c'. split; [done|]. congruence.
Qed.

(** C6, as the code has it.  When the send throws, the caller is
    answered at once with status 500 and the serialization of the object
    whose [error] is the error thrown, and the
    send is attempted once: in every later state the log holds that one
    attempt for the identifier and the caller holds that one reply.  The
    entry and its timer stay in place; unless a response event for the
    identifier comes in, the entry is in the table until its timer fires
    at or after the deadline. *)
Theorem send_failure_keeps_entry s0 i req h0 msg :
  reachable s0 →
  let N := requestIdCounter s0 in
  let k := length (calls s0) in
  let D := now s0 + 30000 in
  let failure := (now s0, error_reply h0 msg) in
  let attempt := (i, request_event req N, SendThrows msg) in
  let c0 := {| res_init := h0; promise := Pending; awaiting := false;
               sent := [failure] |} in
  ∃ s1,
    step s0 (EvRequest i req h0 (SendThrows msg)) = Some s1 ∧
    sendLog s1 = sendLog s0 ++ [attempt] ∧
    reply_status failure.2 = 500 ∧
    reply_body failure.2 =
    JSON_stringify (JsObject [("error", JsString msg)]) ∧
    in_flight N k D c0 s1 ∧
    ∀ tr s, run s1 tr = Some s →
      (∀ k' entry, sendLog s !! k' = Some entry →
                   HttpRequestEvent.request_id entry.1.2 = N →
                   k' = k ∧ entry = attempt) ∧
      (∃ c, calls s !! k = Some c ∧ sent c = [failure]) ∧
      (forallb (λ ev, negb (replies_to N ev)) tr = true →
       in_flight N k D c0 s ∨ timed_out N k D c0 s).
Proof.
  intros Hreach N k D failure attempt c0.
  pose proof (inv_reachable _ Hreach) as Hinv0.
  destruct (handle_request_in_flight i req h0 (SendThrows msg) s0 Hinv0)
    as [HNk Hfl].
  pose proof (inv_handle_request i req h0 (SendThrows msg) s0 Hinv0) as Hinv1.
  exists (handle_request i req h0 (SendThrows msg) s0).2.
  split; [done|]. split; [done|]. split; [done|]. split; [done|].
  split; [done|].
  intros tr s Hrun.
  assert (sendLog (handle_request i req h0 (SendThrows msg) s0).2 !! k
          = Some attempt) as Hlog.
  { simpl. destruct Hinv0 as [_ _ _ Hl _]. unfold k. rewrite <- Hl.
    by apply list_lookup_middle. }
  destruct Hfl as (HN & Hk & Hc).
  destruct (idle_run k attempt tr c0 _ s Hc eq_refl Hlog Hrun)
    as [Hsent Hlog'].
  pose proof (inv_run _ _ _ Hinv1 Hrun) as [_ _ _ _ Hg].
  split; [|split].
  - intros k' entry Hk' Hid.
    assert (k' = k) as ->.
    { apply id_of_inj. rewrite <- (Hg _ _ Hk'), Hid. done. }
    split; [done|]. congruence.
  - done.
  - intros Hquiet.
    apply (outcome_run N k D c0 tr _ s Hinv1 HNk
             (or_introl (conj HN (conj Hk Hc))) Hrun Hquiet).
Qed.

(** ** Shutdown *)

(** C5, as the code has it.  The cleanup function closes the listener
    and touches neither the table, the calls, the timers nor the clock:
    every request registered before it is still registered after it,
    its promise still pending and its timer still set, and it is that
    timer which fails the promise, with the timeout error. *)
Theorem cleanup_leaves_pending s i :
  reachable s →
  ∃ s',
    step s (EvCleanup i) = Some s' ∧
    pendingRequests s' = pendingRequests s ∧ calls s' = calls s ∧
    timers s' = timers s ∧ now s' = now s ∧
    closedServers s' = closedServers s ++ [i] ∧
    ∀ N k, pendingRequests s !! N = Some k →
      pendingRequests s' !! N = Some k ∧
      (∃ c t, calls s' !! k = Some c ∧ promise c = Pending ∧
              timers s' !! k = Some t ∧ timer_request_id t = N) ∧
      (∀ s'', step s' (EvTimeout k) = Some s'' →
              pendingRequests s'' !! N = None ∧
              ∃ c, calls s'' !! k = Some c ∧
                   promise c = Rejected timeout_error).
Proof.
  intros Hreach. pose proof (inv_reachable _ Hreach) as [Hc Hp Ht _ _].
  exists (cleanup i s). do 6 (split; [done|]).
  intros N k HN. destruct (Hp _ _ HN) as (HNk & [t Hkt] & c & Hck & Hpc).
  destruct (Ht _ _ Hkt) as [Hid _].
  split; [done|]. split.
  - exists c, t. simpl. do 3 (split; [done|]). congruence.
  - intros s''. simpl. rewrite Hkt.
    destruct (due t <=? now s); [|done]. intros [= <-].
    unfold on_timeout. simpl. rewrite Hid, <- HNk, HN. simpl.
    split; [apply lookup_delete_eq|].
    exists (settle (now s) (Rejected timeout_error) c).
    rewrite list_lookup_alter_eq, Hck. split; [done|].
    by apply settle_pending.
Qed.

(** ** Registration *)

(** C4, as the code has it.  Registration cannot fail: it stores the
    resolver under the identifier whatever the table holds, replacing
    an entry that is there, and leaves the other entries alone; the
    catch-all route, for its part, always registers, and the identifier
    it registers is never in the table. *)
Theorem register_overwrites :
  (∀ request_id resolver table,
     register request_id resolver table !! request_id = Some resolver ∧
     ∀ other, other ≠ request_id →
              register request_id resolver table !! other = table !! other) ∧
  (∀ s i req h0 outcome,
     reachable s →
     pendingRequests s !! requestIdCounter s = None ∧
     ∃ s', step s (EvRequest i req h0 outcome) = Some s' ∧
           pendingRequests s' =
           register (requestIdCounter s) (length (calls s))
                    (pendingRequests s)).
Proof.
  split.
  - intros request_id resolver table. unfold register.
    split; [apply lookup_insert_eq|].
    intros other Hother. by apply lookup_insert_ne.
  - intros s i req h0 outcome Hreach.
    pose proof (inv_reachable _ Hreach) as Hinv. split.
    + destruct (pendingRequests s !! requestIdCounter s) as [k|] eqn:Hk;
        [|done].
      apply (pending_issued _ _ _ Hinv) in Hk. lia.
    + by eexists.
Qed.

(** ** Cross-origin headers *)



(** ** The body of the request event *)

(** C9.  The code on the three kinds of body.  A text is passed as it
    is, and an object or an array as its serialization.  A request
    without body reaches the route with the empty object in [req.body];
    the empty object passes the test of line 112, so the body of the
    request event is the serialization of the empty object, not the
    empty string that line 109 prepares and that an undefined
    [req.body] would give. *)
Theorem body_coerced_to_string :
  (∀ req request_id,
     HttpRequestEvent.body (request_event req request_id) =
     body_string (req_body req)) ∧
  (∀ text, body_string (parsed_body (TextPayload text)) = text) ∧
  (∀ value, structured value →
            body_string (parsed_body (JsonPayload value)) =
            JSON_stringify value) ∧
  body_string (parsed_body NoPayload) = JSON_stringify (JsObject []) ∧
  body_string JsUndefined = "".
Proof.
  split; [done|]. split; [done|]. split; [|done].
  intros value Hvalue. by destruct value.
Qed.

End Properties.

(** * The theorems at work on the sample data *)

Lemma two_requests_reachable : reachable (after two_requests).
Proof. exists two_requests. reflexivity. Qed.

(** With two requests in flight, the response for the second settles the
    second call and leaves the entry of the first. *)
Lemma correlation_correct_witness :
  ∃ c s',
    step (after two_requests) (EvIpcMessage 0 "http-response" (ok_for 2))
    = Some s' ∧
    calls s' !! 1%nat = Some c ∧ promise c = Fulfilled (ok_for 2) ∧
    pendingRequests s' !! 2 = None ∧
    pendingRequests s' !! 1 = Some 0%nat.
Proof.
  destruct (correlation_correct (after two_requests) 0 (ok_for 2) 1
              two_requests_reachable eq_refl)
    as (c & s' & Hstep & _ & _ & (c' & Hc' & Hp' & _) & Hgone & _ & Hrest).
  exists c', s'. split; [exact Hstep|]. split; [exact Hc'|].
  split; [exact Hp'|]. split; [exact Hgone|].
  destruct (Hrest 1 0%nat) as (_ & Hkept & _).
  - discriminate.
  - reflexivity.
  - exact Hkept.
Defined.

(** The entry of identifier 1 is removed once, by the response; the
    timer and the second response find nothing. *)
Lemma entry_removed_once_witness :
  length (removals 1 init answered_twice) = 1%nat ∧
  ∀ ev, ev ∈ removals 1 init answered_twice → removes 1 ev.
Proof.
  destruct (entry_removed_once answered_twice (after answered_twice) 1
              eq_refl) as (Hlen & _ & Hev & _).
  split; [exact Hlen|exact Hev].
Defined.

Lemma identifiers_distinct_increasing_witness :
  (assignments init two_requests).*2 = [1; 2] ∧
  StronglySorted Z.lt (assignments init two_requests).*2 ∧
  NoDup (assignments init two_requests).*2.
Proof.
  split; [reflexivity|].
  destruct identifiers_distinct_increasing as (_ & _ & _ & Hruns).
  exact (Hruns two_requests).
Defined.

(** Registering under an identifier that is in the table succeeds and
    replaces the resolver. *)
Lemma register_replaces_silently :
  register 1 3%nat ∅ !! 1 = Some 3%nat ∧
  register 1 7%nat (register 1 3%nat ∅) !! 1 = Some 7%nat.
Proof. split; reflexivity. Qed.

Lemma register_overwrites_witness :
  pendingRequests (after two_requests) !! 3 = None ∧
  ∃ s', step (after two_requests) (EvRequest 0 get_foo ∅ SendOk) = Some s' ∧
        pendingRequests s' !! 3 = Some 2%nat.
Proof.
  destruct register_overwrites as [Hreg Hroute].
  destruct (Hroute (after two_requests) 0%nat get_foo ∅ SendOk
              two_requests_reachable) as (Hfree & s' & Hstep & Htable).
  split; [exact Hfree|]. exists s'. split; [exact Hstep|].
  rewrite Htable. exact (proj1 (Hreg 3 2%nat _)).
Defined.

(** After the cleanup function the request is registered as before and
    its caller has received nothing. *)
Lemma cleanup_does_not_drain :
  run init closed_in_flight = Some (after closed_in_flight) ∧
  closedServers (after closed_in_flight) = [0%nat] ∧
  pendingRequests (after closed_in_flight) !! 1 = Some 0%nat ∧
  calls (after closed_in_flight) !! 0%nat =
  Some {| res_init := ∅; promise := Pending; awaiting := true; sent := [] |}.
Proof. repeat split; reflexivity. Qed.

Lemma cleanup_leaves_pending_witness :
  ∃ s', step (after two_requests) (EvCleanup 0) = Some s' ∧
        pendingRequests s' !! 1 = Some 0%nat ∧
        pendingRequests s' !! 2 = Some 1%nat.
Proof.
  destruct (cleanup_leaves_pending (after two_requests) 0
              two_requests_reachable)
    as (s' & Hstep & _ & _ & _ & _ & _ & Hall).
  exists s'. split; [exact Hstep|]. split.
  - exact (proj1 (Hall 1 0%nat eq_refl)).
  - exact (proj1 (Hall 2 1%nat eq_refl)).
Defined.

(** After a send that threw, the entry and its timer are in place. *)
Lemma send_failure_entry_remains :
  run init failed_send = Some (after failed_send) ∧
  pendingRequests (after failed_send) !! 1 = Some 0%nat ∧
  timers (after failed_send) !! 0%nat =
  Some {| due := 30000; timer_request_id := 1 |} ∧
  (∃ c, calls (after failed_send) !! 0%nat = Some c ∧
        sent c = [(0, error_reply ∅ destroyed)]).
Proof.
  split; [reflexivity|]. split; [reflexivity|]. split; [reflexivity|].
  eexists. split; reflexivity.
Qed.

Lemma send_failure_keeps_entry_witness :
  ∃ s1, step init (EvRequest 0 get_foo ∅ (SendThrows destroyed)) = Some s1 ∧
        pendingRequests s1 !! 1 = Some 0%nat ∧
        sendLog s1 = [(0%nat, request_event get_foo 1, SendThrows destroyed)].
Proof.
  destruct (send_failure_keeps_entry init 0 get_foo ∅ destroyed
              reachable_init) as (s1 & Hstep & Hlog & _ & _ & (HN & _) & _).
  exists s1. split; [exact Hstep|]. split; [exact HN|exact Hlog].
Defined.





(** A GET without body is sent to the renderer with the body [{}]. *)
Lemma body_coerced_to_string_witness :
  body_string (req_body post_bar) = json_text (req_body post_bar) ∧
  req_body get_foo = parsed_body NoPayload ∧
  HttpRequestEvent.body (request_event get_foo 1) = "{}".
Proof.
  destruct body_coerced_to_string as (Hbody & _ & Hstructured & Habsent & _).
  split; [exact (Hstructured (req_body post_bar) I)|].
  split; [reflexivity|].
  rewrite Hbody. exact Habsent.
Defined.

(** The request of instance 0 is resolved by a message heard on the
    window of instance 1. *)
Lemma registry_shared_across_instances_witness :
  ∃ s' c,
    step (after two_requests) (EvIpcMessage 1 "http-response" (ok_for 1))
    = Some s' ∧
    pendingRequests s' !! 1 = None ∧
    calls s' !! 0%nat = Some c ∧ promise c = Fulfilled (ok_for 1).
Proof.
  destruct registry_shared_across_instances as [_ Hshared].
  destruct (Hshared (after two_requests) 0%nat 0%nat 1%nat
              (request_event get_foo 1) SendOk (ok_for 1)
              two_requests_reachable eq_refl eq_refl) as (_ & s' & c & H).
  exists s', c. exact H.
Defined.

(** ** The scenarios of the specification *)

(** [GET /foo], answered after five seconds with status 200 and body
    [ok]: the caller receives that status and that body. *)
Example scenario_answered :
  ∃ c reply,
    calls (after [EvRequest 0 get_foo ∅ SendOk; EvTick 5000;
                  EvIpcMessage 0 "http-response" (ok_for 1)]) !! 0%nat
    = Some c ∧
    sent c = [(5000, reply)] ∧
    reply_status reply = 200 ∧ reply_body reply = "ok".
Proof. eexists _, _. repeat split; reflexivity. Qed.

(** Two requests in flight, answered in the reverse order: each caller
    receives the reply that carries its own identifier. *)
Example scenario_out_of_order :
  ∃ a b reply_a reply_b,
    let s := after (two_requests ++
                    [EvIpcMessage 0 "http-response"
                       (HttpResponseEvent.mk 2 201 "for B");
                     EvIpcMessage 0 "http-response"
                       (HttpResponseEvent.mk 1 200 "for A")]) in
    calls s !! 0%nat = Some a ∧ calls s !! 1%nat = Some b ∧
    sent a = [(0, reply_a)] ∧ sent b = [(0, reply_b)] ∧
    (reply_status reply_a, reply_body reply_a) = (200, "for A") ∧
    (reply_status reply_b, reply_body reply_b) = (201, "for B") ∧
    pendingRequests s = ∅.
Proof. eexists _, _, _, _. repeat split; reflexivity. Qed.

(** * More of the bridge *)

Section Coverage.

Context {serializer : Serializer} {library : HttpLibrary}.

Lemma reachable_after_run s tr s' :
  reachable s → run s tr = Some s' → reachable s'.
Proof.
  intros [tr0 Htr0] Hrun. exists (tr0 ++ tr).
  by rewrite run_app, Htr0.
Qed.

(** ** The calls and their replies *)

Lemma calls_inv_same s s' :
  calls s' = calls s → pendingRequests s' = pendingRequests s →
  sendLog s' = sendLog s → calls_inv s → calls_inv s'.
Proof.
  intros Hc Hp Hl Hinv k c. rewrite Hc, Hp, Hl. apply Hinv.
Qed.

(** The promise of call [k0] is settled and its entry deleted. *)
Lemma calls_inv_settled s s' k0 t outcome :
  calls_inv s →
  pendingRequests s !! id_of k0 = Some k0 →
  calls s' = alter (settle t outcome) k0 (calls s) →
  pendingRequests s' = delete (id_of k0) (pendingRequests s) →
  sendLog s' = sendLog s →
  (∃ response, outcome = Fulfilled response ∧
               HttpResponseEvent.request_id response = id_of k0) ∨
  outcome = Rejected timeout_error →
  calls_inv s'.
Proof.
  intros Hinv Hk0 Hc Hp Hl Hout k c'. rewrite Hc, Hp, Hl.
  destruct (decide (k0 = k)) as [->|Hne].
  - rewrite list_lookup_alter_eq.
    destruct (calls s !! k) as [c|] eqn:Hck; [|done]. intros [= <-].
    destruct (Hinv k c Hck) as (i & req & o & Hlog & Hst & Hiff & Hful).
    assert (promise c = Pending) as Hpc by (by apply Hiff).
    exists i, req, o. split; [done|]. unfold settle. rewrite Hpc. simpl.
    split; [|split].
    + destruct o as [|msg]; simpl in *.
      * destruct Hst as [(Ha & _ & Hs)|[(_ & t0 & r0 & ? & _)
                                       |(_ & t0 & ? & _)]];
          [|congruence..].
        rewrite Ha, Hs. simpl.
        destruct Hout as [(r & -> & _)| ->]; simpl.
        -- right. left. split; [done|]. by exists t, r.
        -- right. right. split; [done|]. by exists t.
      * destruct Hst as (Ha & Hs & _). rewrite Ha. split; [done|].
        split; [done|].
        destruct Hout as [(r & -> & _)| ->]; [right; left; eauto|by right; right].
    + rewrite lookup_delete_eq.
      split; [|done]. by destruct Hout as [(r & -> & _)| ->].
    + intros r Hr. destruct Hout as [(r0 & -> & Hid)| ->]; [|done].
      by injection Hr as <-.
  - rewrite list_lookup_alter_ne by done. intros Hck.
    destruct (Hinv k c' Hck) as (i & req & o & Hlog & Hst & Hiff & Hful).
    exists i, req, o. split; [done|]. split; [done|]. split; [|done].
    rewrite lookup_delete_ne; [done|]. by intros ?%id_of_inj.
Qed.

Lemma calls_inv_step s ev s' :
  inv s → calls_inv s → step s ev = Some s' → calls_inv s'.
Proof.
  intros [Hc Hp Ht Hl Hg] Hinv.
  destruct ev as [i h0|i h0|i req h0 outcome|i ch r|k1|d|i]; simpl.
  - by intros [= <-].
  - by intros [= <-].
  - intros [= <-] k c. simpl. unfold register.
    intros [Hk|[Hge Hk]]%lookup_app_Some.
    + pose proof (lookup_lt_Some _ _ _ Hk) as Hlt.
      destruct (Hinv k c Hk) as (i0 & req0 & o & Hlog & Hst & Hiff & Hful).
      exists i0, req0, o. split; [|split; [done|split; [|done]]].
      * rewrite lookup_app_l; [done|lia].
      * rewrite lookup_insert_ne; [done|]. rewrite Hc. unfold id_of. lia.
    + apply list_lookup_singleton_Some in Hk as [Hk <-].
      assert (k = length (calls s)) as -> by lia.
      exists i, req, outcome. rewrite <- Hc. split; [|split; [|split]].
      * rewrite <- Hl. by apply list_lookup_middle.
      * destruct outcome; simpl; [by left|]. split; [done|]. split; eauto.
      * rewrite lookup_insert_eq. by destruct outcome.
      * by destruct outcome.
  - intros [= <-]. unfold on_ipc_message. case_decide; [|done].
    destruct (pendingRequests s !! HttpResponseEvent.request_id r) as [k0|]
      eqn:Hk0; [|done].
    destruct (Hp _ _ Hk0) as (Hid & _). rewrite Hid in Hk0.
    eapply (calls_inv_settled s _ k0); [done|done|done| |done|left; eauto].
    simpl. by rewrite Hid.
  - destruct (timers s !! k1) as [t1|] eqn:Hk1; [|done].
    destruct (due t1 <=? now s); [|done]. intros [= <-].
    destruct (Ht _ _ Hk1) as [Hid _]. unfold on_timeout. simpl.
    destruct (pendingRequests s !! timer_request_id t1) as [k0|] eqn:Hk0.
    + destruct (Hp _ _ Hk0) as (Hid0 & _).
      assert (k0 = k1) as -> by (apply id_of_inj; congruence).
      rewrite Hid in Hk0.
      eapply (calls_inv_settled s _ k1); [done|done|done| |done|by right].
      simpl. by rewrite Hid.
    + by apply (calls_inv_same s).
  - destruct (0 <=? d); [|done]. intros [= <-]. by apply (calls_inv_same s).
  - intros [= <-]. by apply (calls_inv_same s).
Qed.

Lemma calls_inv_reachable s : reachable s → calls_inv s.
Proof.
  intros [tr Htr]. revert s Htr.
  induction tr as [|ev tr IH] using rev_ind; intros s.
  { intros [= <-] k c Hk. by destruct k. }
  rewrite run_app. destruct (run init tr) as [s0|] eqn:Hs0; [|done].
  simpl. destruct (step s0 ev) as [s1|] eqn:Hstep; [|done].
  intros [= <-]. eapply calls_inv_step; [|by apply IH|done].
  apply inv_reachable. by exists tr.
Qed.

Lemma timers_due_reachable s : reachable s → timers_due s.
Proof.
  intros [tr Htr]. revert s Htr.
  induction tr as [|ev tr IH] using rev_ind; intros s.
  { intros [= <-] k t Hk. simpl in Hk. by rewrite lookup_empty in Hk. }
  rewrite run_app. destruct (run init tr) as [s0|] eqn:Hs0; [|done].
  simpl. specialize (IH s0 eq_refl).
  destruct ev as [i h0|i h0|i req h0 outcome|i ch r|k1|d|i]; simpl.
  - by intros [= <-].
  - by intros [= <-].
  - intros [= <-] k t. simpl. rewrite lookup_insert.
    case_decide; [by intros [= <-]|apply IH].
  - intros [= <-]. unfold on_ipc_message. case_decide; [|done].
    by destruct (pendingRequests s0 !! _).
  - destruct (timers s0 !! k1) as [t1|]; [|done].
    destruct (due t1 <=? now s0); [|done]. intros [= <-].
    assert (timers_due (with_timers (delete k1) s0)) as Hdel.
    { intros k t. simpl. rewrite lookup_delete. case_decide; [done|apply IH]. }
    unfold on_timeout. simpl. by destruct (pendingRequests s0 !! _).
  - destruct (0 <=? d) eqn:Hd; [|done]. intros [= <-] k t Hk. simpl.
    specialize (IH k t Hk). lia.
  - by intros [= <-].
Qed.

Lemma suspended_registered s k c :
  reachable s → calls s !! k = Some c → awaiting c = true →
  pendingRequests s !! id_of k = Some k.
Proof.
  intros Hreach Hk Ha.
  destruct (calls_inv_reachable s Hreach k c Hk)
    as (i & req & o & Hlog & Hst & Hiff & Hful).
  apply Hiff. destruct o as [|msg]; simpl in Hst.
  - destruct Hst as [(_ & ? & _)|[(? & _)|(? & _)]]; [done|congruence..].
  - destruct Hst as (? & _). congruence.
Qed.

(** X1. An HTTP caller never holds more than one reply, and holds none
    exactly while its handler is suspended; a suspended handler has its
    promise pending, its identifier in the table and its timer set, due
    within thirty seconds. *)
Theorem one_reply_per_caller s k c :
  reachable s → calls s !! k = Some c →
  (length (sent c) ≤ 1)%nat ∧
  (awaiting c = true ↔ sent c = []) ∧
  (awaiting c = true →
   promise c = Pending ∧ pendingRequests s !! id_of k = Some k ∧
   ∃ t, timers s !! k = Some t ∧ timer_request_id t = id_of k ∧
        due t ≤ now s + 30000).
Proof.
  intros Hreach Hk.
  destruct (calls_inv_reachable s Hreach k c Hk)
    as (i & req & o & Hlog & Hst & Hiff & Hful).
  assert ((length (sent c) ≤ 1)%nat ∧ (awaiting c = true ↔ sent c = []) ∧
          (awaiting c = true → promise c = Pending)) as (H1 & H2 & H3).
  { destruct o as [|msg]; simpl in Hst.
    - destruct Hst as [(Ha & Hp & Hs)|[(Ha & t & r & Hp & Hs)
                                      |(Ha & t & Hp & Hs)]];
        rewrite Ha, Hs; simpl; split; try lia; split; try done.
    - destruct Hst as (Ha & (t & Hs) & _). rewrite Ha, Hs. simpl.
      split; [lia|]. by split. }
  split; [done|]. split; [done|]. intros Ha. specialize (H3 Ha).
  split; [done|]. apply Hiff in H3 as Hreg. split; [done|].
  destruct (inv_reachable s Hreach) as [_ Hp Ht _ _].
  destruct (Hp _ _ Hreg) as (_ & [t Hkt] & _).
  exists t. split; [done|]. split; [by apply Ht|].
  by apply (timers_due_reachable s Hreach k).
Qed.


Lemma quiet_when_no_timer s :
  reachable s → timers s = ∅ →
  pendingRequests s = ∅ ∧ ∀ k c, calls s !! k = Some c → awaiting c = false.
Proof.
  intros Hreach Hnone.
  destruct (inv_reachable s Hreach) as [_ Hp _ _ _].
  assert (pendingRequests s = ∅) as Hempty.
  { apply map_empty. intros N.
    destruct (pendingRequests s !! N) as [k|] eqn:HN; [|done].
    destruct (Hp _ _ HN) as (_ & [t Hkt] & _).
    by rewrite Hnone, lookup_empty in Hkt. }
  split; [done|]. intros k c Hk.
  destruct (awaiting c) eqn:Ha; [|done].
  pose proof (suspended_registered s k c Hreach Hk Ha) as Hreg.
  by rewrite Hempty, lookup_empty in Hreg.
Qed.

(** X3. The table holds exactly the identifiers of the calls whose
    promise is pending, each under the handle of its call; so when no
    timer is left the table is empty and no handler is suspended. *)
Theorem table_tracks_promises s :
  reachable s →
  (∀ N k, pendingRequests s !! N = Some k ↔
          N = id_of k ∧ ∃ c, calls s !! k = Some c ∧ promise c = Pending) ∧
  (timers s = ∅ →
   pendingRequests s = ∅ ∧
   ∀ k c, calls s !! k = Some c → awaiting c = false).
Proof.
  intros Hreach.
  destruct (inv_reachable s Hreach) as [_ Hp _ _ _].
  pose proof (calls_inv_reachable s Hreach) as Hcalls.
  split.
  - intros N k. split.
    + intros HN. destruct (Hp _ _ HN) as (? & _ & ?). by split.
    + intros (-> & c & Hk & Hpc).
      destruct (Hcalls k c Hk) as (_ & _ & _ & _ & _ & Hiff & _).
      by apply Hiff.
  - by apply quiet_when_no_timer.
Qed.

(** ** Timers *)

Lemma step_timeout_timers s k s' :
  step s (EvTimeout k) = Some s' →
  timers s' = delete k (timers s) ∧ now s' = now s.
Proof.
  simpl. destruct (timers s !! k) as [t|]; [|done].
  destruct (due t <=? now s); [|done]. intros [= <-].
  unfold on_timeout. simpl. by destruct (pendingRequests s !! _).
Qed.

(** Timers that are due can be fired one after the other. *)
Lemma fire_all ks : ∀ s,
  NoDup ks →
  (∀ k, k ∈ ks → ∃ t, timers s !! k = Some t ∧ due t ≤ now s) →
  ∃ s', run s (EvTimeout <$> ks) = Some s' ∧ now s' = now s ∧
        ∀ k, timers s' !! k = if decide (k ∈ ks) then None
                              else timers s !! k.
Proof.
  induction ks as [|k ks IH]; intros s Hnd Hall.
  - exists s. split; [done|]. split; [done|]. intros k.
    rewrite decide_False; [done|]. apply not_elem_of_nil.
  - apply NoDup_cons in Hnd as [Hk Hnd].
    destruct (Hall k) as (t & Hkt & Hdue); [by left|].
    assert (∃ s1, step s (EvTimeout k) = Some s1) as [s1 Hs1].
    { simpl. rewrite Hkt. destruct (due t <=? now s) eqn:Hle; [eauto|lia]. }
    destruct (step_timeout_timers _ _ _ Hs1) as [Htimers Hnow].
    destruct (IH s1 Hnd) as (s' & Hrun & Hnow' & Hlookup).
    { intros k' Hk'. rewrite Htimers, Hnow.
      rewrite lookup_delete_ne by (intros ->; done).
      apply Hall. by right. }
    exists s'. split; [|split].
    + rewrite fmap_cons. cbn [run]. by rewrite Hs1.
    + congruence.
    + intros k0. rewrite Hlookup, Htimers.
      destruct (decide (k0 = k)) as [->|Hne].
      * rewrite decide_False by done.
        rewrite decide_True by (by left). apply lookup_delete_eq.
      * rewrite lookup_delete_ne by done.
        destruct (decide (k0 ∈ ks)) as [Hin|Hin].
        -- by rewrite decide_True by (by right).
        -- rewrite decide_False; [done|].
           by intros [?|?]%elem_of_cons.
Qed.

(** X4. From any reachable state, letting thirty seconds pass and
    firing the timers that are set is possible, and leaves the table
    and the timer queue empty and every caller with exactly one
    reply: no request stays unanswered. *)
Theorem timers_answer_everyone s :
  reachable s →
  ∃ s',
    run s (EvTick 30000 :: (EvTimeout <$> (map_to_list (timers s)).*1))
    = Some s' ∧
    now s' = now s + 30000 ∧
    pendingRequests s' = ∅ ∧ timers s' = ∅ ∧
    ∀ k c, calls s' !! k = Some c →
           awaiting c = false ∧ length (sent c) = 1%nat.
Proof.
  intros Hreach. pose proof (timers_due_reachable s Hreach) as Hdue.
  destruct (fire_all (map_to_list (timers s)).*1 (tick 30000 s))
    as (s' & Hrun & Hnow & Hlookup).
  { apply NoDup_fst_map_to_list. }
  { intros k [[k' t] [-> Hin]]%list_elem_of_fmap.
    apply elem_of_map_to_list in Hin. exists t. split; [done|].
    simpl. exact (Hdue _ _ Hin). }
  assert (run s (EvTick 30000 :: (EvTimeout <$> (map_to_list (timers s)).*1))
          = Some s') as Hrun' by done.
  pose proof (reachable_after_run _ _ _ Hreach Hrun') as Hreach'.
  assert (timers s' = ∅) as Htimers.
  { apply map_empty. intros k. rewrite Hlookup. case_decide as Hk; [done|].
    simpl. destruct (timers s !! k) as [t|] eqn:Hkt; [|done].
    exfalso. apply Hk. apply list_elem_of_fmap. exists (k, t).
    split; [done|]. by apply elem_of_map_to_list. }
  destruct (quiet_when_no_timer s' Hreach' Htimers) as [Hempty Hidle].
  exists s'. split; [done|]. split; [done|]. split; [done|].
  split; [done|]. intros k c Hk. specialize (Hidle k c Hk).
  split; [done|].
  destruct (calls_inv_reachable s' Hreach' k c Hk)
    as (_ & _ & o & _ & Hst & _).
  destruct o as [|msg]; simpl in Hst.
  - destruct Hst as [(? & _)|[(_ & ? & ? & _ & ->)|(_ & ? & _ & ->)]];
      [congruence|done..].
  - by destruct Hst as (_ & (? & ->) & _).
Qed.

(** ** Requests do not disturb one another *)

(** X5. The timer of one call leaves every other call, every other
    timer and the entry of every other identifier as they were, and
    never changes the counter, the clock or the log of sends. *)
Theorem timeout_isolated s k s' :
  reachable s → step s (EvTimeout k) = Some s' →
  (∀ k', k' ≠ k → calls s' !! k' = calls s !! k' ∧
                  timers s' !! k' = timers s !! k') ∧
  (∀ M, M ≠ id_of k → pendingRequests s' !! M = pendingRequests s !! M) ∧
  requestIdCounter s' = requestIdCounter s ∧ now s' = now s ∧
  sendLog s' = sendLog s.
Proof.
  intros Hreach. destruct (inv_reachable s Hreach) as [_ _ Ht _ _].
  simpl. destruct (timers s !! k) as [t|] eqn:Hkt; [|done].
  destruct (due t <=? now s); [|done]. intros [= <-].
  destruct (Ht _ _ Hkt) as [Hid _]. unfold on_timeout. simpl. rewrite Hid.
  destruct (pendingRequests s !! id_of k); simpl.
  - split; [|split; [|done]].
    + intros k' Hk'. rewrite list_lookup_alter_ne by done.
      by rewrite lookup_delete_ne.
    + intros M HM. by rewrite lookup_delete_ne.
  - split; [|done]. intros k' Hk'. by rewrite lookup_delete_ne.
Qed.

(** X6. Taking in a request, whether its send returns or throws,
    leaves the calls, the entries and the timers that are there as
    they were, and appends one line to the log of sends. *)
Theorem request_isolated s i req h0 outcome :
  reachable s →
  ∃ s',
    step s (EvRequest i req h0 outcome) = Some s' ∧
    (∀ k c, calls s !! k = Some c → calls s' !! k = Some c) ∧
    (∀ N k, pendingRequests s !! N = Some k →
            pendingRequests s' !! N = Some k) ∧
    (∀ k t, timers s !! k = Some t → timers s' !! k = Some t) ∧
    length (calls s') = S (length (calls s)) ∧
    sendLog s' =
    sendLog s ++ [(i, request_event req (requestIdCounter s), outcome)] ∧
    now s' = now s.
Proof.
  intros Hreach. pose proof (inv_reachable s Hreach) as Hinv.
  destruct Hinv as [Hc Hp Ht Hl Hg] eqn:E. clear E.
  exists (handle_request i req h0 outcome s).2. simpl. unfold register.
  split; [done|]. split; [|split; [|split; [|split; [|done]]]].
  - intros k c Hk. rewrite lookup_app_l; [done|]. by eapply lookup_lt_Some.
  - intros N k HN. rewrite lookup_insert_ne; [done|]. intros <-.
    apply (pending_issued _ _ _ (inv_reachable s Hreach)) in HN. lia.
  - intros k t Hk. rewrite lookup_insert_ne; [done|]. intros <-.
    destruct (Ht _ _ Hk). lia.
  - rewrite length_app. simpl. lia.
Qed.

(** ** Messages the listener drops *)

(** X7. A message on the response channel whose identifier is not in
    the table changes nothing; this is so, in every reachable state,
    for an identifier below 1 and for an identifier that the counter
    has not reached, so a response cannot be delivered ahead of its
    request. *)
Theorem unmatched_response_dropped s i channel response :
  reachable s →
  HttpResponseEvent.request_id response < 1 ∨
  requestIdCounter s ≤ HttpResponseEvent.request_id response ∨
  pendingRequests s !! HttpResponseEvent.request_id response = None →
  step s (EvIpcMessage i channel response) = Some s.
Proof.
  intros Hreach Hid. simpl. f_equal. apply on_ipc_message_miss.
  destruct (pendingRequests s !! _) as [k|] eqn:Hk; [|done].
  pose proof (pending_issued _ _ _ (inv_reachable s Hreach) Hk).
  destruct Hid as [?|[?|?]]; [lia|lia|done].
Qed.

(** ** Responses in either order *)

Lemma on_ipc_message_other channel response M s :
  HttpResponseEvent.request_id response ≠ M →
  pendingRequests (on_ipc_message channel response s) !! M =
  pendingRequests s !! M.
Proof.
  intros HM. unfold on_ipc_message. case_decide; [|done].
  destruct (pendingRequests s !! _); [|done]. simpl.
  by rewrite lookup_delete_ne.
Qed.

(** X9. Two response events for different identifiers can arrive in
    either order: the state after both is the same, so each caller
    gets the same reply whichever response the renderer sends first. *)
Theorem responses_commute s i1 i2 r1 r2 :
  reachable s →
  HttpResponseEvent.request_id r1 ≠ HttpResponseEvent.request_id r2 →
  run s [EvIpcMessage i1 "http-response" r1;
         EvIpcMessage i2 "http-response" r2] =
  run s [EvIpcMessage i2 "http-response" r2;
         EvIpcMessage i1 "http-response" r1].
Proof.
  intros Hreach Hne. simpl. f_equal.
  destruct (inv_reachable s Hreach) as [_ Hp _ _ _].
  destruct (pendingRequests s !! HttpResponseEvent.request_id r1) as [k1|]
    eqn:H1.
  - destruct (pendingRequests s !! HttpResponseEvent.request_id r2) as [k2|]
      eqn:H2.
    + assert (k1 ≠ k2).
      { destruct (Hp _ _ H1) as [E1 _], (Hp _ _ H2) as [E2 _]. congruence. }
      rewrite (on_ipc_message_hit r1 s k1 H1), (on_ipc_message_hit r2 s k2 H2).
      rewrite (on_ipc_message_hit r2 _ k2), (on_ipc_message_hit r1 _ k1).
      * unfold with_pending, resolve, with_calls. simpl. f_equal.
        -- apply delete_delete.
        -- by apply list_alter_alter_ne.
      * simpl. by rewrite lookup_delete_ne.
      * simpl. by rewrite lookup_delete_ne.
    + rewrite (on_ipc_message_miss _ r2 s H2).
      apply on_ipc_message_miss. by rewrite on_ipc_message_other.
  - rewrite (on_ipc_message_miss _ r1 s H1). symmetry.
    apply on_ipc_message_miss. by rewrite on_ipc_message_other.
Qed.

(** ** The headers of the request event *)

Lemma convert_headers_snoc entries name value :
  convert_headers (entries ++ [(name, value)]) =
  match value with
  | HvString x => <[name := x]> (convert_headers entries)
  | HvArray x _ => <[name := x]> (convert_headers entries)
  | HvUndefined => convert_headers entries
  end.
Proof. unfold convert_headers. by rewrite foldl_app. Qed.

Lemma convert_headers_absent entries name :
  name ∉ entries.*1 → convert_headers entries !! name = None.
Proof.
  induction entries as [|[n v] entries IH] using rev_ind; intros Hname.
  - apply lookup_empty.
  - rewrite fmap_app in Hname. apply not_elem_of_app in Hname as [H1 H2].
    assert (n ≠ name) by (intros ->; apply H2; by left).
    rewrite convert_headers_snoc.
    destruct v; rewrite ?lookup_insert_ne by done; by apply IH.
Qed.

(** X10. When the header names are distinct, as the entries of an
    object are, the request event has for each header its string, or the
    first element of its array, and no entry for a header whose value
    is undefined or that the request does not have. *)
Theorem convert_headers_lookup entries :
  NoDup entries.*1 →
  (∀ name value, (name, value) ∈ entries →
     convert_headers entries !! name =
     match value with
     | HvString x => Some x
     | HvArray x _ => Some x
     | HvUndefined => None
     end) ∧
  (∀ name, name ∉ entries.*1 → convert_headers entries !! name = None).
Proof.
  intros Hnd. split; [|apply convert_headers_absent].
  induction entries as [|[n v] entries IH] using rev_ind;
    intros name value Hin.
  - by apply elem_of_nil in Hin.
  - rewrite fmap_app in Hnd. apply NoDup_app in Hnd as (Hnd & Hfresh & _).
    assert (n ∉ entries.*1) as Hn.
    { intros Hn. apply (Hfresh n Hn). by left. }
    rewrite convert_headers_snoc.
    apply elem_of_app in Hin as [Hin|Hin].
    + assert (n ≠ name).
      { intros ->. apply Hn. apply list_elem_of_fmap. by exists (name, value). }
      destruct v; rewrite ?lookup_insert_ne by done; by apply IH.
    + apply list_elem_of_singleton in Hin as [= -> ->].
      destruct v; rewrite ?lookup_insert_eq; try done.
      by apply convert_headers_absent.
Qed.

(** ** What the renderer is sent *)

(** X11. There is one send per call; the message of the k-th send
    (counting from 0) is the translation of a request under the
    identifier k + 1, so the renderer is sent the identifiers 1, 2, 3
    and so on in this order; and the counter is one more than the
    number of sends. *)
Theorem sends_in_order s :
  reachable s →
  length (sendLog s) = length (calls s) ∧
  requestIdCounter s = Z.of_nat (length (sendLog s)) + 1 ∧
  ∀ k i requestEvent outcome,
    sendLog s !! k = Some (i, requestEvent, outcome) →
    ∃ req, requestEvent = request_event req (Z.of_nat k + 1).
Proof.
  intros Hreach. destruct (inv_reachable s Hreach) as [Hc _ _ Hl _].
  split; [done|]. split; [by rewrite Hl|].
  intros k i requestEvent outcome Hk.
  pose proof (lookup_lt_Some _ _ _ Hk) as Hlt. rewrite Hl in Hlt.
  apply lookup_lt_is_Some_2 in Hlt as [c Hck].
  destruct (calls_inv_reachable s Hreach k c Hck)
    as (i' & req & o & Hlog & _).
  exists req. unfold id_of in Hlog. congruence.
Qed.

(** ** Starting the listener *)

Lemma server_event_exited evs : ∀ st,
  is_Some (exit_code st) → foldl server_event st evs = st.
Proof.
  induction evs as [|ev evs IH]; intros st [code Hst]; [done|].
  simpl. unfold server_event at 2. rewrite Hst. apply IH. eauto.
Qed.

Lemma startup_run evs : ∀ st,
  exit_code st = None →
  start_outcome (foldl server_event st evs) =
  if decide (Some "EADDRINUSE" ∈ error_codes evs) then StartExited 1
  else match server_promise st with
       | SrvPending =>
           match error_codes evs with
           | [] => StartSuspended
           | code :: _ => StartFailed code
           end
       | SrvFulfilled => StartReturned
       | SrvRejected code => StartFailed code
       end.
Proof.
  induction evs as [|ev evs IH]; intros st Hst.
  - change (foldl server_event st []) with st.
    destruct (decide (Some "EADDRINUSE" ∈ error_codes []))
      as [Hin|_]; [by apply elem_of_nil in Hin|].
    unfold start_outcome. rewrite Hst. by destruct (server_promise st).
  - change (foldl server_event st (ev :: evs))
      with (foldl server_event (server_event st ev) evs).
    unfold server_event at 2. rewrite Hst. destruct ev as [|code].
    + change (error_codes (SrvListening :: evs)) with (error_codes evs).
      by rewrite IH.
    + change (error_codes (SrvError code :: evs))
        with (code :: error_codes evs).
      destruct (decide (code = Some "EADDRINUSE")) as [->|Hcode].
      * rewrite server_event_exited by (simpl; eauto).
        destruct (decide (Some "EADDRINUSE"
                            ∈ Some "EADDRINUSE" :: error_codes evs))
          as [_|Hin]; [done|].
        exfalso. apply Hin. by left.
      * rewrite IH by done. cbn [server_promise].
        destruct (decide (Some "EADDRINUSE" ∈ error_codes evs)) as [Hin|Hin];
          destruct (decide (Some "EADDRINUSE" ∈ code :: error_codes evs))
          as [Hin'|Hin'].
        -- done.
        -- exfalso. apply Hin'. by right.
        -- by apply elem_of_cons in Hin' as [?|?].
        -- by destruct (server_promise st).
Qed.

(** X12. Whatever the server reports, [startHttpServer] does not get
    past the promise of line 168, so it never returns its cleanup
    function: if the address is in use the process exits with code 1;
    if not, the first error rejects the promise; and with no error,
    listening or not, the function stays suspended. *)
Theorem startup_never_returns evs :
  start_outcome (foldl server_event startup_init evs) ≠ StartReturned ∧
  (Some "EADDRINUSE" ∈ error_codes evs →
   start_outcome (foldl server_event startup_init evs) = StartExited 1) ∧
  (Some "EADDRINUSE" ∉ error_codes evs →
   start_outcome (foldl server_event startup_init evs) =
   match error_codes evs with
   | [] => StartSuspended
   | code :: _ => StartFailed code
   end).
Proof.
  rewrite (startup_run evs startup_init eq_refl).
  cbn [server_promise startup_init].
  destruct (decide (Some "EADDRINUSE" ∈ error_codes evs)) as [Hin|Hin].
  - split; [done|]. split; [done|]. intros Hnot. by destruct Hnot.
  - split; [by destruct (error_codes evs)|]. split; [|done].
    intros Hyes. by destruct Hin.
Qed.

End Coverage.

(** * More of the bridge, on the sample data *)

Lemma two_due_reachable : reachable (after two_due).
Proof. exists two_due. reflexivity. Qed.

Lemma one_reply_per_caller_witness :
  ∃ c, calls (after two_requests) !! 1%nat = Some c ∧ sent c = [] ∧
       pendingRequests (after two_requests) !! 2 = Some 1%nat.
Proof.
  eexists. split; [reflexivity|].
  destruct (one_reply_per_caller (after two_requests) 1 _
              two_requests_reachable eq_refl) as (_ & Hnone & Hreg).
  split; [exact (proj1 Hnone eq_refl)|].
  exact (proj1 (proj2 (Hreg eq_refl))).
Defined.


Lemma table_tracks_promises_witness :
  pendingRequests (after two_requests) !! 2 = Some 1%nat.
Proof.
  destruct (table_tracks_promises (after two_requests)
              two_requests_reachable) as [Hiff _].
  apply Hiff. split; [reflexivity|]. eexists. split; reflexivity.
Defined.

Lemma timers_answer_everyone_witness :
  ∃ s',
    run (after two_requests)
        (EvTick 30000 ::
         (EvTimeout <$> (map_to_list (timers (after two_requests))).*1))
    = Some s' ∧
    pendingRequests s' = ∅ ∧ timers s' = ∅.
Proof.
  destruct (timers_answer_everyone (after two_requests)
              two_requests_reachable)
    as (s' & Hrun & _ & Hempty & Hnone & _).
  exists s'. split; [exact Hrun|]. split; [exact Hempty|exact Hnone].
Defined.

Lemma timeout_isolated_witness :
  pendingRequests (after (two_due ++ [EvTimeout 0])) !! 2 =
  pendingRequests (after two_due) !! 2.
Proof.
  destruct (timeout_isolated (after two_due) 0
              (after (two_due ++ [EvTimeout 0])) two_due_reachable eq_refl)
    as (_ & Hentries & _).
  apply Hentries. discriminate.
Defined.

Lemma request_isolated_witness :
  ∃ s',
    step (after two_requests) (EvRequest 0 get_foo ∅ (SendThrows destroyed))
    = Some s' ∧
    pendingRequests s' !! 1 = Some 0%nat ∧
    pendingRequests s' !! 2 = Some 1%nat.
Proof.
  destruct (request_isolated (after two_requests) 0 get_foo ∅
              (SendThrows destroyed) two_requests_reachable)
    as (s' & Hstep & _ & Hentries & _).
  exists s'. split; [exact Hstep|]. split.
  - exact (Hentries 1 0%nat eq_refl).
  - exact (Hentries 2 1%nat eq_refl).
Defined.

Lemma unmatched_response_dropped_witness :
  step (after two_requests) (EvIpcMessage 0 "http-response" (ok_for 3))
  = Some (after two_requests).
Proof.
  apply unmatched_response_dropped; [exact two_requests_reachable|].
  right. left. compute. discriminate.
Defined.

Lemma responses_commute_witness :
  run (after two_requests)
      [EvIpcMessage 0 "http-response" (ok_for 1);
       EvIpcMessage 1 "http-response" (ok_for 2)] =
  run (after two_requests)
      [EvIpcMessage 1 "http-response" (ok_for 2);
       EvIpcMessage 0 "http-response" (ok_for 1)].
Proof.
  apply responses_commute; [exact two_requests_reachable|discriminate].
Defined.

Lemma convert_headers_lookup_witness :
  convert_headers sample_headers !! "set-cookie" = Some "a=1" ∧
  convert_headers sample_headers !! "x-gone" = None ∧
  convert_headers sample_headers !! "host" = None.
Proof.
  assert (NoDup sample_headers.*1) as Hnd.
  { apply (bool_decide_unpack _). reflexivity. }
  destruct (convert_headers_lookup sample_headers Hnd) as [Hin Hout].
  split; [|split].
  - apply (Hin "set-cookie" (HvArray "a=1" ["b=2"])).
    right. apply list_elem_of_here.
  - apply (Hin "x-gone" HvUndefined).
    right. right. apply list_elem_of_here.
  - apply Hout. apply (bool_decide_unpack _). reflexivity.
Defined.

Lemma sends_in_order_witness :
  requestIdCounter (after two_requests) = 3 ∧
  ∃ req, sendLog (after two_requests) !! 1%nat
         = Some (1%nat, request_event req 2, SendOk).
Proof.
  destruct (sends_in_order (after two_requests) two_requests_reachable)
    as (_ & Hcounter & Hlog).
  split; [exact Hcounter|].
  destruct (Hlog 1%nat 1%nat (request_event post_bar 2) SendOk eq_refl)
    as [req Hreq].
  exists req.
  change (request_event req 2) with (request_event req (Z.of_nat 1 + 1)).
  rewrite <- Hreq. reflexivity.
Defined.

(** The server listens and reports nothing else: the function is
    still suspended. *)
Lemma startup_never_returns_witness :
  start_outcome (foldl server_event startup_init [SrvListening; SrvListening])
  = StartSuspended ∧
  start_outcome (foldl server_event startup_init
                   [SrvError (Some "EACCES"); SrvError (Some "EADDRINUSE")])
  = StartExited 1.
Proof.
  split.
  - destruct (startup_never_returns [SrvListening; SrvListening])
      as (_ & _ & Hquiet).
    apply Hquiet. apply not_elem_of_nil.
  - destruct (startup_never_returns
                [SrvError (Some "EACCES"); SrvError (Some "EADDRINUSE")])
      as (_ & Hused & _).
    apply Hused. right. apply list_elem_of_here.
Defined.
